(** * Lowering of LMHLO operations to XLA CPU runtime calls

    A shallow embedding of
    [xla/mlir/backends/cpu/transforms/lmhlo_to_cpu_runtime.cc]: the rewrite
    patterns [CustomCallOpLowering], [InfeedOpLowering], [OutfeedOpLowering],
    [IdOpLowering] and [AllReduceLowering], and the pass that drives them.

    The IR is modelled as far as the patterns look at it: a module is a list
    of functions, a function is its entry block (a list of operations), an
    operation is one of the six source kinds or one of the four kinds the
    patterns create.  A pattern runs in a small state-and-failure monad whose
    state is what the C++ mutates through the builder: the callee registry,
    the supply of SSA values and the operations that precede the matched
    operation in its function. *)

From stdpp Require Import gmap strings list fin_maps.
From Stdlib Require Import ZArith Wf_nat.

(** ** Types, values, attributes *)

Inductive ScalarType :=
| IntegerType (width : N)
| FloatType (width : N)
| IndexType.

(** A layout whose map is the identity is [IdentityLayout]; [StridedLayout]
    stands for every other layout ([ty.getLayout().isIdentity()] is false). *)
Inductive MemRefLayout :=
| IdentityLayout
| StridedLayout (offset : Z) (strides : list Z).

Inductive MlirType :=
| MemRefType (shape : list Z) (elementType : ScalarType) (layout : MemRefLayout)
| RankedTensorType (shape : list Z) (elementType : ScalarType)
| ScalarTy (t : ScalarType).

#[global] Instance ScalarType_eq_dec : EqDecision ScalarType.
Proof. solve_decision. Defined.
#[global] Instance MemRefLayout_eq_dec : EqDecision MemRefLayout.
Proof. solve_decision. Defined.
#[global] Instance MlirType_eq_dec : EqDecision MlirType.
Proof. solve_decision. Defined.

Definition isIdentity (l : MemRefLayout) : bool :=
  match l with
  | IdentityLayout => true
  | StridedLayout _ _ => false
  end.

(** [MemRefType::get(shape, elementType)]: the default layout is the identity. *)
Definition MemRefType_get (shape : list Z) (elementType : ScalarType) : MlirType :=
  MemRefType shape elementType IdentityLayout.

Definition getI8Type : ScalarType := IntegerType 8.
Definition getI32Type : MlirType := ScalarTy (IntegerType 32).

(** [t.isa<MemRefType>()] *)
Definition isa_MemRefType (t : MlirType) : bool :=
  match t with
  | MemRefType _ _ _ => true
  | _ => false
  end.

(** An SSA value: an identity and a static type. *)
Record Value := mkValue { value_id : nat; getType : MlirType }.

#[global] Instance Value_eq_dec : EqDecision Value.
Proof. solve_decision. Defined.

Inductive Attribute :=
| IntegerAttr (width : N) (value : Z)
| StringAttr (s : string)
| BoolAttr (b : bool)
| DenseIntElementsAttr (elements : list Z).

#[global] Instance Attribute_eq_dec : EqDecision Attribute.
Proof. solve_decision. Defined.

(** [static_cast<int32_t>] of an [int64_t]: the low 32 bits, read as signed. *)
Definition static_cast_int32 (z : Z) : Z :=
  ((z + 2 ^ 31) `mod` 2 ^ 32 - 2 ^ 31)%Z.

Definition getI32IntegerAttr (z : Z) : Attribute := IntegerAttr 32 z.
Definition getI64IntegerAttr (z : Z) : Attribute := IntegerAttr 64 z.

Definition TypeRange (vs : list Value) : list MlirType := getType <$> vs.

(** ** Operations *)

(** [lmhlo::CustomCallTargetArgMappingAttr]: four [int64_t] parameters. *)
Record CustomCallTargetArgMapping := {
  getNumArgs : Z;
  getNumResults : Z;
  getArgsToTargetArgs : list Z;
  getResultsToTargetResults : list Z;
}.

(** [lmhlo.custom_call]: the operands are [args] followed by [output]
    ([AttrSizedOperandSegments]). *)
Record CustomCall := {
  getArgs : list Value;
  getOutput : list Value;
  getCallTargetNameAttr : Attribute;
  getApiVersionAttr : Attribute;
  getTargetArgMapping : option CustomCallTargetArgMapping;
}.

Definition CustomCall_getOperands (op : CustomCall) : list Value :=
  getArgs op ++ getOutput op.

(** The [operand_segment_sizes] attribute, a [DenseI32ArrayAttr]. *)
Definition getOperandSegmentSizes (op : CustomCall) : list Z :=
  [Z.of_nat (length (getArgs op)); Z.of_nat (length (getOutput op))].

(** [func.call]: the callee symbol, operands, results and the attribute
    dictionary that [setAttr] writes to. *)
Record Call := {
  callee : string;
  call_operands : list Value;
  call_results : list Value;
  call_attrs : gmap string Attribute;
}.

Inductive Operation :=
| CustomCallOp (op : CustomCall)
| InfeedOp (operands : list Value) (attrs : gmap string Attribute)
| OutfeedOp (operands : list Value) (attrs : gmap string Attribute)
| PartitionIdOp (result : Value)
| ReplicaIdOp (result : Value)
| AllReduceOp (operands : list Value) (attrs : gmap string Attribute)
| AllocaOp (result : Value)
| AllocOp (result : Value)
| CopyOp (source target : Value)
| CallOp (call : Call).

(** [func.func] with the operations of its entry block ([front()]). *)
Record FuncOp := { sym_name : string; front : list Operation }.

(** A callee declaration: a private function without a body. *)
Record FunctionType := { getInputs : list MlirType; getResults : list MlirType }.
Record FuncDecl := { getName : string; getFunctionType : FunctionType }.

#[global] Instance FunctionType_eq_dec : EqDecision FunctionType.
Proof. solve_decision. Defined.

Record ModuleOp := {
  functions : list FuncOp;
  declarations : gmap string FunctionType;
  value_supply : nat;
}.

(** ** The rewriter monad *)

Inductive LogicalResult := success | failure.

(** What a pattern mutates while it rewrites one matched operation: the
    callee registry, the supply of SSA values, the operations before the
    matched operation in its function's entry block, and what stands in the
    place of the matched operation (the operation itself until it is replaced
    or erased). *)
Record Rewriter := {
  custom_calls : gmap string FunctionType;
  next_value : nat;
  preceding : list Operation;
  root : list Operation;
}.

(** [None] is an aborted run: a failed assertion of the host library. *)
Definition M (A : Type) : Type := Rewriter → option (A * Rewriter).

#[global] Instance M_ret : MRet M := λ A a r, Some (a, r).
#[global] Instance M_bind : MBind M := λ A B k c r,
  match c r with
  | Some (a, r') => k a r'
  | None => None
  end.
Definition abort {A} : M A := λ _, None.

Definition lift_assert {A} (o : option A) : M A :=
  match o with
  | Some a => mret a
  | None => abort
  end.

Definition fresh (ty : MlirType) : M Value :=
  λ r, Some (mkValue (next_value r) ty,
             {| custom_calls := custom_calls r;
                next_value := S (next_value r);
                preceding := preceding r;
                root := root r |}).

(** [b.create<...>] at the builder's insertion point, which is just before
    the matched operation. *)
Definition create (o : Operation) : M () :=
  λ r, Some ((), {| custom_calls := custom_calls r;
                    next_value := next_value r;
                    preceding := preceding r ++ [o];
                    root := root r |}).

(** [b.create<...>] after [setInsertionPointToStart] of the parent function's
    entry block; the [InsertionGuard] puts the insertion point back. *)
Definition create_at_entry (o : Operation) : M () :=
  λ r, Some ((), {| custom_calls := custom_calls r;
                    next_value := next_value r;
                    preceding := o :: preceding r;
                    root := root r |}).

(** [rewriter.replaceOpWithNewOp<func::CallOp>(op, ...)] *)
Definition replaceOpWithNewOp (call : Call) : M () :=
  λ r, Some ((), {| custom_calls := custom_calls r;
                    next_value := next_value r;
                    preceding := preceding r;
                    root := [CallOp call] |}).

(** [rewriter.eraseOp(op)] *)
Definition eraseOp : M () :=
  λ r, Some ((), {| custom_calls := custom_calls r;
                    next_value := next_value r;
                    preceding := preceding r;
                    root := [] |}).

(** Modelled from the spec: [CustomCallDeclarations::GetOrCreate] is declared
    in [xla/mlir/runtime/utils/custom_calls.h], which is not among the
    sources.  It "looks up an existing declaration under [name]; if present,
    returns it unconditionally"; "if absent, synthesizes a new
    private/external function declaration with the given signature and
    inserts it into the compilation unit's symbol table". *)
Definition GetOrCreate (name : string) (operand_types result_types : list MlirType)
  : M FuncDecl :=
  λ r, match custom_calls r !! name with
       | Some ty => Some ({| getName := name; getFunctionType := ty |}, r)
       | None =>
           let ty := {| getInputs := operand_types; getResults := result_types |} in
           Some ({| getName := name; getFunctionType := ty |},
                 {| custom_calls := <[name := ty]> (custom_calls r);
                    next_value := next_value r;
                    preceding := preceding r;
                    root := root r |})
       end.

(** [call->setAttr(name, value)] *)
Definition setAttr (name : string) (value : Attribute) (call : Call) : Call :=
  {| callee := callee call;
     call_operands := call_operands call;
     call_results := call_results call;
     call_attrs := <[name := value]> (call_attrs call) |}.

(** Modelled from the spec: [AppendCustomCallAttrs] is declared in
    [xla/mlir/runtime/utils/custom_calls.h], which is not among the sources.
    It attaches the given named attributes to the call, in order. *)
Definition AppendCustomCallAttrs (call : Call) (attrs : list (string * Attribute)) : Call :=
  foldl (λ c a, setAttr a.1 a.2 c) call attrs.

(** [func::CallOp] as the builder makes it: no attributes besides the callee. *)
Definition build_CallOp (name : string) (results operands : list Value) : Call :=
  {| callee := name; call_operands := operands; call_results := results;
     call_attrs := ∅ |}.

(** ** Generic custom call *)

Definition kCustomCallTarget : string := "xla.cpu.custom_call".

(** [operands[i] = v] on a [SmallVector]: the index is asserted in range. *)
Definition assign (operands : list Value) (i : Z) (v : Value) : option (list Value) :=
  if bool_decide (0 ≤ i < Z.of_nat (length operands))%Z
  then Some (<[Z.to_nat i := v]> operands)
  else None.

(** [a + b] on [int64_t]: the sum in two's complement. *)
Definition wrap_int64 (z : Z) : Z :=
  ((z + 2 ^ 63) `mod` 2 ^ 64 - 2 ^ 63)%Z.

Definition int64_add (a b : Z) : Z := wrap_int64 (a + b).

(** [SmallVector<Value>(n, hole)].  The size of a [SmallVector<Value>] is a
    32-bit unsigned number: a request for more than 4294967295 elements, and
    with it every negative [int64_t] (a huge [size_t]), is a fatal error.
    Below that limit the vector is built; that the host may also run out of
    memory is not modelled. *)
Definition SmallVector_fill (n : Z) (hole : Value) : option (list Value) :=
  if bool_decide (0 ≤ n ≤ 4294967295)%Z
  then Some (replicate (Z.to_nat n) hole)
  else None.

(** [for (indexed : llvm::enumerate(targets))
       operands[base + indexed.value()] = source[indexed.index()];] *)
Fixpoint assign_mapped (targets : list Z) (index : nat) (base : Z)
    (source operands : list Value) : option (list Value) :=
  match targets with
  | [] => Some operands
  | value :: targets' =>
      match source !! index with
      | Some v =>
          match assign operands (int64_add base value) v with
          | Some operands' => assign_mapped targets' (S index) base source operands'
          | None => None
          end
      | None => None
      end
  end.

(** The body of [if (op.getTargetArgMapping().has_value())]: the operand
    list and the result count under a mapping. *)
Definition map_target_operands (op : CustomCall) (mapping : CustomCallTargetArgMapping)
  : M (list Value * Z) :=
  let num_args := getNumArgs mapping in
  let num_results := getNumResults mapping in
  hole ← fresh (MemRefType_get [0%Z] getI8Type);
  create_at_entry (AllocaOp hole);;
  operands ← lift_assert (SmallVector_fill (int64_add num_args num_results) hole);
  operands ← lift_assert
    (assign_mapped (getArgsToTargetArgs mapping) 0 0 (getArgs op) operands);
  operands ← lift_assert
    (assign_mapped (getResultsToTargetResults mapping) 0 num_args (getOutput op) operands);
  mret (operands, num_results).

(** The operands and the result count of the call: all operands and the
    second operand segment size by default, the mapped operands and the
    mapping's result count when there is a mapping. *)
Definition call_operands_and_num_results (op : CustomCall) : M (list Value * Z) :=
  let operands := CustomCall_getOperands op in
  let num_results := default 0%Z (getOperandSegmentSizes op !! 1) in
  match getTargetArgMapping op with
  | Some mapping => map_target_operands op mapping
  | None => mret (operands, num_results)
  end.

(** [CustomCallOpLowering::matchAndRewrite].  The attributes are appended to
    the call once it has replaced the operation; here the call is finished
    first and put in place afterwards. *)
Definition CustomCallOpLowering_matchAndRewrite (op : CustomCall) : M LogicalResult :=
  '(operands, num_results) ← call_operands_and_num_results op;
  callee ← GetOrCreate kCustomCallTarget (TypeRange operands) [];
  let custom_call_attrs :=
    [("num_results", getI32IntegerAttr (static_cast_int32 num_results));
     ("api_version", getApiVersionAttr op);
     ("call_target_name", getCallTargetNameAttr op)] in
  let call := build_CallOp (getName callee) [] operands in
  let call := AppendCustomCallAttrs call custom_call_attrs in
  replaceOpWithNewOp call;;
  mret success.

(** ** Infeed and outfeed *)

(** [LowerXfeed] *)
Definition LowerXfeed (operands : list Value) (call_target : string) : M LogicalResult :=
  callee ← GetOrCreate call_target (TypeRange operands) [];
  replaceOpWithNewOp (build_CallOp (getName callee) [] operands);;
  mret success.

Definition kCallTarget_infeed : string := "xla.cpu.infeed".
Definition kCallTarget_outfeed : string := "xla.cpu.outfeed".

(** ** Partition and replica id *)

(** [IdOpLowering<IdOp>::matchAndRewrite]: the call's one [i32] result takes
    the place of the operation's result. *)
Definition IdOpLowering_matchAndRewrite (result : Value) (call_target : string)
  : M LogicalResult :=
  callee ← GetOrCreate call_target [] [getI32Type];
  replaceOpWithNewOp
    (build_CallOp (getName callee) [mkValue (value_id result) getI32Type] []);;
  mret success.

(** ** All-reduce *)

Definition kCallTarget_all_reduce : string := "xla.cpu.all_reduce".

(** [t.cast<MemRefType>()]: asserts that the type is a memref. *)
Definition cast_MemRefType (t : MlirType) : option (list Z * ScalarType * MemRefLayout) :=
  match t with
  | MemRefType shape elementType layout => Some (shape, elementType, layout)
  | _ => None
  end.

(** The loop over [op.getOperands()] that fills [new_operands] and
    [new_operand_types]. *)
Fixpoint normalize_operands (operands new_operands : list Value)
    (new_operand_types : list MlirType) : M (list Value * list MlirType) :=
  match operands with
  | [] => mret (new_operands, new_operand_types)
  | operand :: rest =>
      '(shape, elementType, layout) ← lift_assert (cast_MemRefType (getType operand));
      if isIdentity layout then
        normalize_operands rest (new_operands ++ [operand])
          (new_operand_types ++ [getType operand])
      else
        let default_layout_ty := MemRefType_get shape elementType in
        new_operand ← fresh default_layout_ty;
        create (AllocOp new_operand);;
        create (CopyOp operand new_operand);;
        normalize_operands rest (new_operands ++ [new_operand])
          (new_operand_types ++ [default_layout_ty])
  end.

(** The defaults and the copy of the source attributes.  [op->getAttrs()] is
    a dictionary, walked entry by entry. *)
Definition all_reduce_attrs (attrs : gmap string Attribute) (call : Call) : Call :=
  let call := setAttr "use_global_device_ids" (getI32IntegerAttr 0) call in
  let call := setAttr "op_id" (getI64IntegerAttr 0) call in
  foldl (λ c attr, setAttr attr.1 attr.2 c) call (map_to_list attrs).

(** [AllReduceLowering::matchAndRewrite].  [front()] of the operand types
    asserts that there is an operand.  The call is created before the matched
    operation and its attributes are set on it afterwards; here the
    attributes are computed first and the finished call is created. *)
Definition AllReduceLowering_matchAndRewrite (operands : list Value)
    (attrs : gmap string Attribute) : M LogicalResult :=
  first ← lift_assert (head operands);
  if negb (isa_MemRefType (getType first)) then mret failure
  else
    '(new_operands, new_operand_types) ← normalize_operands operands [] [];
    callee ← GetOrCreate kCallTarget_all_reduce new_operand_types [];
    let call := build_CallOp (getName callee) [] new_operands in
    create (CallOp (all_reduce_attrs attrs call));;
    eraseOp;;
    mret success.

(** ** Patterns and the pass *)

(** An [OpRewritePattern<T>] only fires on operations of kind [T]. *)
Definition Pattern : Type := Operation → M LogicalResult.

Definition CustomCallOpLowering : Pattern := λ o,
  match o with
  | CustomCallOp op => CustomCallOpLowering_matchAndRewrite op
  | _ => mret failure
  end.

Definition InfeedOpLowering : Pattern := λ o,
  match o with
  | InfeedOp operands _ => LowerXfeed operands kCallTarget_infeed
  | _ => mret failure
  end.

Definition OutfeedOpLowering : Pattern := λ o,
  match o with
  | OutfeedOp operands _ => LowerXfeed operands kCallTarget_outfeed
  | _ => mret failure
  end.

Inductive IdOp := PartitionId | ReplicaId.

Definition IdOpLowering (kind : IdOp) (call_target : string) : Pattern := λ o,
  match kind, o with
  | PartitionId, PartitionIdOp result
  | ReplicaId, ReplicaIdOp result => IdOpLowering_matchAndRewrite result call_target
  | _, _ => mret failure
  end.

Definition AllReduceLowering : Pattern := λ o,
  match o with
  | AllReduceOp operands attrs => AllReduceLowering_matchAndRewrite operands attrs
  | _ => mret failure
  end.

(** The pattern set of [runOnOperation], in insertion order. *)
Definition patterns : list Pattern :=
  [InfeedOpLowering; OutfeedOpLowering; CustomCallOpLowering; AllReduceLowering;
   IdOpLowering PartitionId "xla.cpu.partition_id";
   IdOpLowering ReplicaId "xla.cpu.replica_id"].

(** The rewriter as it starts on operation [op], the [i]-th of [fn]. *)
Definition start (m : ModuleOp) (fn : FuncOp) (i : nat) (op : Operation) : Rewriter :=
  {| custom_calls := declarations m;
     next_value := value_supply m;
     preceding := take i (front fn);
     root := [op] |}.

(** The module as the rewriter leaves it after working on operation [i] of
    function [f]. *)
Definition commit (m : ModuleOp) (f i : nat) (fn : FuncOp) (r : Rewriter) : ModuleOp :=
  {| functions :=
       <[f := {| sym_name := sym_name fn;
                 front := preceding r ++ root r ++ drop (S i) (front fn) |}]>
         (functions m);
     declarations := custom_calls r;
     value_supply := next_value r |}.

(** Run one pattern on operation [i] of function [f]. *)
Definition applyPattern (pattern : Pattern) (m : ModuleOp) (f i : nat)
  : option (LogicalResult * ModuleOp) :=
  match functions m !! f with
  | None => Some (failure, m)
  | Some fn =>
      match front fn !! i with
      | None => Some (failure, m)
      | Some op =>
          match pattern op (start m fn i op) with
          | Some (result, r) => Some (result, commit m f i fn r)
          | None => None
          end
      end
  end.

(** Try the patterns in turn on one operation; the first that succeeds wins. *)
Fixpoint applyPatterns (ps : list Pattern) (m : ModuleOp) (f i : nat)
  : option (LogicalResult * ModuleOp) :=
  match ps with
  | [] => Some (failure, m)
  | p :: ps' =>
      match applyPattern p m f i with
      | Some (success, m') => Some (success, m')
      | Some (failure, m') => applyPatterns ps' m' f i
      | None => None
      end
  end.

(** The values an operation reads or writes through. *)
Definition getOperands (o : Operation) : list Value :=
  match o with
  | CustomCallOp op => CustomCall_getOperands op
  | InfeedOp operands _ | OutfeedOp operands _ | AllReduceOp operands _ => operands
  | PartitionIdOp _ | ReplicaIdOp _ | AllocaOp _ | AllocOp _ => []
  | CopyOp source target => [source; target]
  | CallOp call => call_operands call
  end.

(** [v.use_empty()]: no operation of the function has [v] as an operand. *)
Definition use_empty (fn : FuncOp) (v : Value) : bool :=
  forallb (λ o, bool_decide (v ∉ getOperands o)) (front fn).

(** Modelled from the spec: [isOpTriviallyDead] belongs to the host's
    "generic rewrite-and-fold engine" and is not among the sources: an
    operation without uses whose only effect is the allocation of its own
    result.  Of the ten kinds that is an unused
    [memref.alloca] or [memref.alloc]; calls, copies and the six source
    kinds have effects besides. *)
Definition isOpTriviallyDead (fn : FuncOp) (o : Operation) : bool :=
  match o with
  | AllocaOp v | AllocOp v => use_empty fn v
  | _ => false
  end.

(** The module without operation [i] of function [f]. *)
Definition erase (m : ModuleOp) (f i : nat) (fn : FuncOp) : ModuleOp :=
  {| functions :=
       <[f := {| sym_name := sym_name fn; front := delete i (front fn) |}]> (functions m);
     declarations := declarations m;
     value_supply := value_supply m |}.

(** Modelled from the spec: one step of the host's "generic rewrite-and-fold
    engine", which is not among the sources.  What the engine does with one
    operation of its worklist: an operation that is trivially dead is erased; otherwise the operation is folded,
    which changes none of the ten kinds (the only folder among them, that of
    [memref.copy], removes casts, and there are none); otherwise the
    patterns are tried. *)
Definition processOperation (m : ModuleOp) (f i : nat) : option (LogicalResult * ModuleOp) :=
  match functions m !! f with
  | None => Some (failure, m)
  | Some fn =>
      match front fn !! i with
      | None => Some (failure, m)
      | Some op =>
          if isOpTriviallyDead fn op then Some (success, erase m f i fn)
          else applyPatterns patterns m f i
      end
  end.

(** The positions of all operations of the module: function index and index
    in the entry block. *)
Definition positions (m : ModuleOp) : list (nat * nat) :=
  mjoin (imap (λ f fn, (λ i, (f, i)) <$> seq 0 (length (front fn))) (functions m)).

(** Walk the worklist up to the first operation that is erased or that some
    pattern rewrites; [failure] when there is none. *)
Fixpoint sweep (worklist : list (nat * nat)) (m : ModuleOp)
  : option (LogicalResult * ModuleOp) :=
  match worklist with
  | [] => Some (failure, m)
  | (f, i) :: worklist' =>
      match processOperation m f i with
      | Some (success, m') => Some (success, m')
      | Some (failure, m') => sweep worklist' m'
      | None => None
      end
  end.

(** Modelled from the spec: [applyPatternsAndFoldGreedily], called at the
    end of [runOnOperation], is the host's "generic rewrite-and-fold engine"
    and not among the sources.  It is "a greedy fixed-point driver that
    repeatedly applies a set of lowering rules until none match, reporting
    convergence success/failure", and on its way it folds operations and
    erases the trivially dead ones ([processOperation]).  [max_rewrites] is
    the engine's bound on its own work: changes beyond it are the
    convergence failure. *)
Fixpoint applyPatternsAndFoldGreedily (max_rewrites : nat) (m : ModuleOp)
  : option (LogicalResult * ModuleOp) :=
  match sweep (positions m) m with
  | None => None
  | Some (failure, m') => Some (success, m')
  | Some (success, m') =>
      match max_rewrites with
      | O => Some (failure, m')
      | S n => applyPatternsAndFoldGreedily n m'
      end
  end.

Inductive PassResult := PassSucceeded | PassFailed.

(** [ConvertLmhloToCpuRuntimePass::runOnOperation] *)
Definition runOnOperation (max_rewrites : nat) (m : ModuleOp)
  : option (PassResult * ModuleOp) :=
  match applyPatternsAndFoldGreedily max_rewrites m with
  | Some (failure, m') => Some (PassFailed, m')
  | Some (success, m') => Some (PassSucceeded, m')
  | None => None
  end.

(** ** Notions the properties are stated with *)

(** What the verifier of [lmhlo.custom_call] accepts as a mapping: one entry
    per source argument and per source result, no target slot named twice,
    at least as many target slots as source positions, every entry inside
    the declared slot count.  The two slot counts are [int64_t] values. *)
Definition verified_mapping (op : CustomCall) (mapping : CustomCallTargetArgMapping) : Prop :=
  length (getArgsToTargetArgs mapping) = length (getArgs op) ∧
  length (getResultsToTargetResults mapping) = length (getOutput op) ∧
  NoDup (getArgsToTargetArgs mapping) ∧
  NoDup (getResultsToTargetResults mapping) ∧
  (Z.of_nat (length (getArgs op)) ≤ getNumArgs mapping)%Z ∧
  (Z.of_nat (length (getOutput op)) ≤ getNumResults mapping)%Z ∧
  Forall (λ t, 0 ≤ t < getNumArgs mapping)%Z (getArgsToTargetArgs mapping) ∧
  Forall (λ t, 0 ≤ t < getNumResults mapping)%Z (getResultsToTargetResults mapping) ∧
  (getNumArgs mapping < 2 ^ 63)%Z ∧
  (getNumResults mapping < 2 ^ 63)%Z.

#[global] Instance verified_mapping_dec op mapping : Decision (verified_mapping op mapping).
Proof. unfold verified_mapping. apply _. Defined.

(** The hole placeholder type, [memref<0xi8>]. *)
Definition hole_type : MlirType := MemRefType_get [0%Z] getI8Type.

Definition is_hole_alloca (o : Operation) : bool :=
  match o with
  | AllocaOp v => bool_decide (getType v = hole_type)
  | _ => false
  end.

(** Number of zero-length [i8] stack allocations in function [f]. *)
Definition hole_allocas (m : ModuleOp) (f : nat) : nat :=
  match functions m !! f with
  | Some fn => length (filter (λ o, is_hole_alloca o = true) (front fn))
  | None => 0
  end.

(** The attributes the custom call ends up with. *)
Definition custom_call_attr_dict (op : CustomCall) (num_results : Z) : gmap string Attribute :=
  <["call_target_name" := getCallTargetNameAttr op]>
    (<["api_version" := getApiVersionAttr op]>
       (<["num_results" := getI32IntegerAttr (static_cast_int32 num_results)]> ∅)).

(** The registry after a request for [name] with the given signature. *)
Definition registry_after (name : string) (operand_types result_types : list MlirType)
    (reg : gmap string FunctionType) : gmap string FunctionType :=
  match reg !! name with
  | Some _ => reg
  | None => <[name := {| getInputs := operand_types; getResults := result_types |}]> reg
  end.

(** The stack allocations that [n] lowerings of mapped custom calls put at
    the entry of a function, the last one first, when the first value they
    create is number [supply]. *)
Fixpoint hole_allocations (supply n : nat) : list Operation :=
  match n with
  | O => []
  | S n' => hole_allocations (S supply) n' ++ [AllocaOp (mkValue supply hole_type)]
  end.

(** [n] generic custom calls that carry a mapping, all in function [f], are
    lowered one after the other. *)
Inductive lowered_custom_calls (f : nat) : nat → ModuleOp → ModuleOp → Prop :=
| lowered_none m : lowered_custom_calls f 0 m m
| lowered_next n m fn i op mapping m1 m2 :
    functions m !! f = Some fn →
    front fn !! i = Some (CustomCallOp op) →
    getTargetArgMapping op = Some mapping →
    applyPattern CustomCallOpLowering m f i = Some (success, m1) →
    lowered_custom_calls f n m1 m2 →
    lowered_custom_calls f (S n) m m2.

(** ** Sample IR *)

Definition f32_4x4 : MlirType := MemRefType_get [4; 4]%Z (FloatType 32).
Definition f32_8 : MlirType := MemRefType_get [8]%Z (FloatType 32).

(** A custom call with the mapping [{0->2, 1->0}] over three argument slots. *)
Definition mapped_custom_call (a0 a1 : Value) : CustomCall :=
  {| getArgs := [a0; a1]; getOutput := [];
     getCallTargetNameAttr := StringAttr "target";
     getApiVersionAttr := IntegerAttr 32 2;
     getTargetArgMapping :=
       Some {| getNumArgs := 3; getNumResults := 0;
               getArgsToTargetArgs := [2; 0]%Z;
               getResultsToTargetResults := [] |} |}.

(** One function with two mapped custom calls on the same two buffers. *)
Definition two_mapped_custom_calls : ModuleOp :=
  let a := mkValue 0 f32_8 in
  let b := mkValue 1 f32_8 in
  {| functions :=
       [{| sym_name := "main";
           front := [CustomCallOp (mapped_custom_call a b);
                     CustomCallOp (mapped_custom_call b a)] |}];
     declarations := ∅;
     value_supply := 2 |}.

(** How an all-reduce operand relates to the value the call receives in its
    place and to the operations created for it: a buffer with the identity
    layout is passed on and nothing is created; for any other buffer one
    allocation of the same shape and element type with the default layout
    and one copy into it are created, and the allocation is passed on. *)
Inductive normalized : Value → Value → list Operation → Prop :=
| passed_through operand shape elementType layout :
    getType operand = MemRefType shape elementType layout →
    isIdentity layout = true →
    normalized operand operand []
| copied operand shape elementType layout new_operand :
    getType operand = MemRefType shape elementType layout →
    isIdentity layout = false →
    getType new_operand = MemRefType shape elementType IdentityLayout →
    normalized operand new_operand [AllocOp new_operand; CopyOp operand new_operand].

(** The two defaults of the all-reduce call. *)
Definition all_reduce_defaults : gmap string Attribute :=
  <["op_id" := IntegerAttr 64 0]> (<["use_global_device_ids" := IntegerAttr 32 0]> ∅).

(** Number of operations of a kind in a list. *)
Definition count_ops (kind : Operation → bool) (ops : list Operation) : nat :=
  length (filter (λ o, kind o = true) ops).




(** Two all-reduce operands: a contiguous buffer and a strided view. *)
Definition contiguous_operand : Value := mkValue 0 f32_8.
Definition strided_operand : Value :=
  mkValue 1 (MemRefType [8]%Z (FloatType 32) (StridedLayout 4 [2]%Z)).

(** An all-reduce on a tensor, and one whose first operand is a buffer and
    whose second is a tensor. *)
Definition tensor_operand : Value := mkValue 2 (RankedTensorType [8]%Z (FloatType 32)).

Definition tensor_all_reduce : ModuleOp :=
  {| functions :=
       [{| sym_name := "main"; front := [AllReduceOp [tensor_operand] ∅] |}];
     declarations := ∅;
     value_supply := 3 |}.

(** The infeed of the spec's scenario: two buffers, [f32[4,4]] and [f32[8]]. *)
Definition infeed_module : ModuleOp :=
  {| functions :=
       [{| sym_name := "main";
           front := [InfeedOp [mkValue 0 f32_4x4; mkValue 1 f32_8]
                       {["config" := StringAttr ""]}] |}];
     declarations := ∅;
     value_supply := 2 |}.

(** An operation that a pattern of the pass takes on: one of the six source
    kinds, the all-reduce only when its first operand is a buffer. *)
Definition matchable (o : Operation) : bool :=
  match o with
  | CustomCallOp _ | InfeedOp _ _ | OutfeedOp _ _ | PartitionIdOp _ | ReplicaIdOp _ => true
  | AllReduceOp operands _ =>
      match head operands with
      | Some first => isa_MemRefType (getType first)
      | None => false
      end
  | AllocaOp _ | AllocOp _ | CopyOp _ _ | CallOp _ => false
  end.

Definition count_matchable (m : ModuleOp) : nat :=
  sum_list_with (λ fn, count_ops matchable (front fn)) (functions m).

(** One replacement: some pattern of the pass rewrites some operation. *)
Definition rewrites (m m' : ModuleOp) : Prop :=
  ∃ p f i, p ∈ patterns ∧ applyPattern p m f i = Some (success, m').

(** One of the four kinds of operation the patterns create. *)
Definition is_lowered (o : Operation) : bool :=
  match o with
  | AllocaOp _ | AllocOp _ | CopyOp _ _ | CallOp _ => true
  | _ => false
  end.

(** One erasure: the engine removes a trivially dead operation. *)
Definition erases (m m' : ModuleOp) : Prop :=
  ∃ f i fn op,
    functions m !! f = Some fn ∧
    front fn !! i = Some op ∧
    isOpTriviallyDead fn op = true ∧
    m' = erase m f i fn.

(** One change made by the engine. *)
Definition engine_step (m m' : ModuleOp) : Prop := rewrites m m' ∨ erases m m'.

(** What an operation can still cost the engine: an allocation may be
    erased; an infeed, outfeed or id operation is replaced by a call; a
    custom call is replaced by a call and at most one allocation; an
    all-reduce by a call and at most one allocation per operand. *)
Definition work (o : Operation) : nat :=
  match o with
  | CustomCallOp _ => 2
  | InfeedOp _ _ | OutfeedOp _ _ | PartitionIdOp _ | ReplicaIdOp _ => 1
  | AllReduceOp operands _ => S (length operands)
  | AllocaOp _ | AllocOp _ => 1
  | CopyOp _ _ | CallOp _ => 0
  end.

Definition remaining_work (m : ModuleOp) : nat :=
  sum_list_with (λ fn, sum_list_with work (front fn)) (functions m).

(** Two infeeds with different operand types in one function. *)
Definition two_infeeds : ModuleOp :=
  {| functions :=
       [{| sym_name := "main";
           front := [InfeedOp [mkValue 0 f32_4x4] ∅; InfeedOp [mkValue 1 f32_8] ∅] |}];
     declarations := ∅;
     value_supply := 2 |}.

(** ** Further notions *)

(** The operation an [IdOpLowering<IdOp>] fires on. *)
Definition IdOp_operation (kind : IdOp) (result : Value) : Operation :=
  match kind with
  | PartitionId => PartitionIdOp result
  | ReplicaId => ReplicaIdOp result
  end.

(** The pattern of the pass that is instantiated for the kind of [o]; no
    pattern is for the four kinds the pass creates. *)
Definition dedicated (o : Operation) : Pattern :=
  match o with
  | InfeedOp _ _ => InfeedOpLowering
  | OutfeedOp _ _ => OutfeedOpLowering
  | CustomCallOp _ => CustomCallOpLowering
  | AllReduceOp _ _ => AllReduceLowering
  | PartitionIdOp _ => IdOpLowering PartitionId "xla.cpu.partition_id"
  | ReplicaIdOp _ => IdOpLowering ReplicaId "xla.cpu.replica_id"
  | AllocaOp _ | AllocOp _ | CopyOp _ _ | CallOp _ => λ _, mret failure
  end.

(** What a successful run of the pass leaves unlowered at most: an
    all-reduce whose first operand is not a buffer. *)
Definition deferred_all_reduce (o : Operation) : Prop :=
  ∃ operands attrs first,
    o = AllReduceOp operands attrs ∧
    head operands = Some first ∧
    isa_MemRefType (getType first) = false.

(** A buffer with the identity layout. *)
Definition has_identity_layout (v : Value) : Prop :=
  ∃ shape elementType, getType v = MemRefType shape elementType IdentityLayout.

(** A function with one operation of every source kind. *)
Definition all_kinds_module : ModuleOp :=
  let a := contiguous_operand in
  let b := mkValue 3 f32_8 in
  {| functions :=
       [{| sym_name := "main";
           front := [InfeedOp [a] ∅;
                     PartitionIdOp (mkValue 4 getI32Type);
                     ReplicaIdOp (mkValue 5 getI32Type);
                     CustomCallOp (mapped_custom_call a b);
                     AllReduceOp [a; strided_operand] {["op_id" := IntegerAttr 64 7]};
                     AllReduceOp [tensor_operand] ∅;
                     OutfeedOp [b] ∅] |};
        {| sym_name := "empty"; front := [] |}];
     declarations := ∅;
     value_supply := 6 |}.

(** The operations of a function that the pass did not create. *)
Definition source_operations (fn : FuncOp) : list Operation :=
  filter (λ o, is_lowered o = false) (front fn).

(** A function after some replacements, against the function before: the
    same name, and the operations the pass did not create are some of those
    that were there, in the order they had. *)
Definition lowered_from (fn fn' : FuncOp) : Prop :=
  sym_name fn' = sym_name fn ∧
  source_operations fn' `sublist_of` source_operations fn.

(** Nothing for the pass to do: every operation is one the pass creates or
    an all-reduce whose first operand is not a buffer. *)
Definition nothing_to_lower (m : ModuleOp) : Prop :=
  Forall (λ fn, Forall (λ o, is_lowered o = true ∨ deferred_all_reduce o) (front fn))
         (functions m).


(** No operation of the module is trivially dead: every allocation is used
    by some operation of its function. *)
Definition no_dead_allocation (m : ModuleOp) : Prop :=
  Forall (λ fn, Forall (λ o, isOpTriviallyDead fn o = false) (front fn)) (functions m).

(** A function that holds nothing but a stack allocation nobody uses. *)
Definition unused_alloca : ModuleOp :=
  {| functions := [{| sym_name := "main"; front := [AllocaOp (mkValue 0 hole_type)] |}];
     declarations := ∅;
     value_supply := 1 |}.
(** * Properties *)

Ltac munfold :=
  repeat (unfold mbind, M_bind, mret, M_ret, lift_assert, abort, fresh, create,
          create_at_entry, replaceOpWithNewOp, eraseOp in *; simpl in *).

(** ** Writing into the operand list *)

Lemma int64_add_small (a b : Z) :
  (- 2 ^ 63 ≤ a + b < 2 ^ 63)%Z → int64_add a b = (a + b)%Z.
Proof. intros H. unfold int64_add, wrap_int64. rewrite Z.mod_small; lia. Qed.

(** The sum of two non-negative [int64_t] values that overflows is negative. *)
Lemma int64_add_nonneg (a b : Z) :
  (0 ≤ a < 2 ^ 63)%Z → (0 ≤ b < 2 ^ 63)%Z →
  (0 ≤ int64_add a b)%Z → int64_add a b = (a + b)%Z.
Proof.
  intros Ha Hb Hsum. destruct (decide (a + b < 2 ^ 63)%Z) as [Hlt|Hge].
  - apply int64_add_small. lia.
  - exfalso. unfold int64_add, wrap_int64 in Hsum.
    replace (a + b + 2 ^ 63)%Z with ((a + b - 2 ^ 63) + 1 * 2 ^ 64)%Z in Hsum by lia.
    rewrite Z_mod_plus_full, Z.mod_small in Hsum; lia.
Qed.

Lemma assign_Some (operands : list Value) i v :
  (0 ≤ i < Z.of_nat (length operands))%Z →
  assign operands i v = Some (<[Z.to_nat i := v]> operands).
Proof. intros H. unfold assign. by rewrite bool_decide_eq_true_2. Qed.

Lemma assign_mapped_spec targets : ∀ index base source (operands : list Value),
  Forall (λ t, 0 ≤ base + t < Z.of_nat (length operands))%Z targets →
  (Z.of_nat (length operands) ≤ 2 ^ 63)%Z →
  index + length targets ≤ length source →
  NoDup targets →
  ∃ operands',
    assign_mapped targets index base source operands = Some operands' ∧
    length operands' = length operands ∧
    (∀ k t, targets !! k = Some t →
            operands' !! Z.to_nat (base + t) = source !! (index + k)) ∧
    (∀ s, (∀ t, t ∈ targets → Z.to_nat (base + t) ≠ s) →
          operands' !! s = operands !! s).
Proof.
  induction targets as [|t targets IH]; intros index base source operands Hr Hsz Hl Hnd.
  - exists operands. split_and!; [done|done| |done].
    intros k t Hk. by rewrite lookup_nil in Hk.
  - inversion Hr as [|? ? Ht Hr']; subst. inversion Hnd as [|? ? Hnotin Hnd']; subst.
    simpl in Hl |- *.
    destruct (lookup_lt_is_Some_2 source index) as [v Hv]; [lia|].
    rewrite Hv, int64_add_small by lia. rewrite assign_Some by done.
    destruct (IH (S index) base source (<[Z.to_nat (base + t) := v]> operands))
      as (operands' & Hrun & Hlen & Hmapped & Hother).
    { rewrite length_insert. done. }
    { by rewrite length_insert. }
    { lia. }
    { done. }
    exists operands'. split; [done|]. rewrite length_insert in Hlen.
    split; [done|]. split.
    + intros [|k] t' Hk; simpl in Hk.
      * injection Hk as <-. rewrite Hother.
        -- rewrite list_lookup_insert_eq by lia. by rewrite Nat.add_0_r.
        -- intros t' Hin Heq. apply Hnotin.
           rewrite Forall_forall in Hr'. specialize (Hr' _ Hin). simpl in Hr'.
           assert (t' = t) as -> by lia. done.
      * rewrite (Hmapped k t' Hk). f_equal. lia.
    + intros s Hs. rewrite Hother.
      * apply list_lookup_insert_ne. apply Hs. left.
      * intros t' Hin. apply Hs. by right.
Qed.

(** Whatever the targets, the loop only ever writes source values. *)
Lemma assign_mapped_elems targets : ∀ index base source (operands operands' : list Value),
  assign_mapped targets index base source operands = Some operands' →
  ∀ v, v ∈ operands' → v ∈ operands ∨ v ∈ source.
Proof.
  induction targets as [|t targets IH]; intros index base source operands operands' Hrun v Hv;
    simpl in Hrun.
  - injection Hrun as <-. by left.
  - destruct (source !! index) as [x|] eqn:Hx; [|done].
    unfold assign in Hrun. case_bool_decide; [|done].
    destruct (IH _ _ _ _ _ Hrun v Hv) as [Hin|Hin]; [|by right].
    apply list_elem_of_lookup in Hin as [k Hk].
    destruct (decide (k = Z.to_nat (int64_add base t))) as [->|Hne].
    + rewrite list_lookup_insert_eq in Hk by lia. injection Hk as <-.
      right. by eapply list_elem_of_lookup_2.
    + rewrite list_lookup_insert_ne in Hk by done.
      left. by eapply list_elem_of_lookup_2.
Qed.

(** ** Generic custom call *)

Lemma map_target_operands_spec (op : CustomCall) (mapping : CustomCallTargetArgMapping)
    (r : Rewriter) :
  verified_mapping op mapping →
  (getNumArgs mapping + getNumResults mapping ≤ 4294967295)%Z →
  let num_args := getNumArgs mapping in
  let hole := mkValue (next_value r) hole_type in
  ∃ operands,
    map_target_operands op mapping r =
      Some ((operands, getNumResults mapping),
            {| custom_calls := custom_calls r;
               next_value := S (next_value r);
               preceding := AllocaOp hole :: preceding r;
               root := root r |}) ∧
    length operands = Z.to_nat (num_args + getNumResults mapping) ∧
    (∀ i t, getArgsToTargetArgs mapping !! i = Some t →
            operands !! Z.to_nat t = getArgs op !! i) ∧
    (∀ j t, getResultsToTargetResults mapping !! j = Some t →
            operands !! Z.to_nat (num_args + t) = getOutput op !! j) ∧
    (∀ s, s < length operands →
          Z.of_nat s ∉ getArgsToTargetArgs mapping →
          (Z.of_nat s - num_args)%Z ∉ getResultsToTargetResults mapping →
          operands !! s = Some hole).
Proof.
  intros (Hla & Hlr & Hnda & Hndr & Hna & Hnr & Hra & Hrr & _ & _) Hfits num_args hole.
  unfold map_target_operands. fold num_args. fold hole_type.
  set (n := (num_args + getNumResults mapping)%Z).
  assert (0 ≤ num_args)%Z by (subst num_args; lia).
  assert (0 ≤ getNumResults mapping)%Z by lia.
  assert (int64_add num_args (getNumResults mapping) = n) as Hsum
    by (apply int64_add_small; subst n num_args; lia).
  destruct (assign_mapped_spec (getArgsToTargetArgs mapping) 0 0 (getArgs op)
              (replicate (Z.to_nat n) hole))
    as (ops1 & Hrun1 & Hlen1 & Hmap1 & Hoth1).
  { rewrite length_replicate. eapply Forall_impl; [exact Hra|]. simpl. subst n. lia. }
  { rewrite length_replicate. subst n num_args. lia. }
  { simpl. lia. }
  { done. }
  destruct (assign_mapped_spec (getResultsToTargetResults mapping) 0 num_args
              (getOutput op) ops1)
    as (ops2 & Hrun2 & Hlen2 & Hmap2 & Hoth2).
  { rewrite Hlen1, length_replicate. eapply Forall_impl; [exact Hrr|]. simpl.
    subst n. lia. }
  { rewrite Hlen1, length_replicate. subst n num_args. lia. }
  { simpl. lia. }
  { done. }
  rewrite length_replicate in Hlen1.
  exists ops2. split_and!.
  - munfold. rewrite Hsum. unfold SmallVector_fill.
    rewrite bool_decide_eq_true_2 by (subst n num_args; lia).
    simpl. fold hole. rewrite Hrun1. simpl. rewrite Hrun2. done.
  - congruence.
  - intros i t Hi. rewrite Hoth2.
    + specialize (Hmap1 i t Hi). by rewrite Z.add_0_l in Hmap1.
    + intros t' Hin. rewrite Forall_forall in Hra, Hrr.
      apply list_elem_of_lookup_2 in Hi.
      specialize (Hra _ Hi). specialize (Hrr _ Hin). simpl in *. lia.
  - intros j t Hj. by rewrite (Hmap2 j t Hj).
  - intros s Hs Hnota Hnotr. rewrite Hoth2, Hoth1.
    + apply lookup_replicate_2. lia.
    + intros t Hin Heq. apply Hnota.
      rewrite Forall_forall in Hra. specialize (Hra _ Hin). simpl in Hra.
      replace (Z.of_nat s) with t by lia. done.
    + intros t Hin Heq. apply Hnotr.
      rewrite Forall_forall in Hrr. specialize (Hrr _ Hin). simpl in Hrr.
      replace (Z.of_nat s - num_args)%Z with t by lia. done.
Qed.

(** A verified mapping whose lowering gets past the construction of the
    operand vector declares at most 4294967295 slots. *)
Lemma map_target_operands_fits (op : CustomCall) (mapping : CustomCallTargetArgMapping)
    (r : Rewriter) :
  verified_mapping op mapping →
  is_Some (map_target_operands op mapping r) →
  (getNumArgs mapping + getNumResults mapping ≤ 4294967295)%Z.
Proof.
  intros (_ & _ & _ & _ & Hna & Hnr & _ & _ & Hai & Hri) [x Hrun].
  unfold map_target_operands in Hrun. munfold.
  unfold SmallVector_fill in Hrun. case_bool_decide as Hn; [|done].
  rewrite int64_add_nonneg in Hn; lia.
Qed.

Lemma GetOrCreate_run name ins outs r :
  GetOrCreate name ins outs r =
    Some ({| getName := name;
             getFunctionType :=
               default {| getInputs := ins; getResults := outs |} (custom_calls r !! name) |},
          {| custom_calls := registry_after name ins outs (custom_calls r);
             next_value := next_value r;
             preceding := preceding r;
             root := root r |}).
Proof.
  unfold GetOrCreate, registry_after. destruct (custom_calls r !! name); [|done].
  by destruct r.
Qed.

Lemma CustomCallOpLowering_run (op : CustomCall) r operands num_results r1 :
  call_operands_and_num_results op r = Some ((operands, num_results), r1) →
  CustomCallOpLowering_matchAndRewrite op r =
    Some (success,
          {| custom_calls :=
               registry_after kCustomCallTarget (TypeRange operands) [] (custom_calls r1);
             next_value := next_value r1;
             preceding := preceding r1;
             root := [CallOp {| callee := kCustomCallTarget;
                                call_operands := operands;
                                call_results := [];
                                call_attrs := custom_call_attr_dict op num_results |}] |}).
Proof.
  intros Hops. unfold CustomCallOpLowering_matchAndRewrite.
  unfold mbind at 1, M_bind at 1. rewrite Hops.
  unfold mbind at 1, M_bind at 1. rewrite GetOrCreate_run. done.
Qed.

Lemma CustomCallOpLowering_inv (op : CustomCall) r result r' :
  CustomCallOpLowering_matchAndRewrite op r = Some (result, r') →
  ∃ operands num_results r1,
    call_operands_and_num_results op r = Some ((operands, num_results), r1).
Proof.
  unfold CustomCallOpLowering_matchAndRewrite. unfold mbind at 1, M_bind at 1.
  destruct (call_operands_and_num_results op r) as [[[operands num_results] r1]|]; [|done].
  eauto.
Qed.

Lemma map_target_operands_inv (op : CustomCall) mapping r operands num_results r1 :
  map_target_operands op mapping r = Some ((operands, num_results), r1) →
  num_results = getNumResults mapping ∧
  r1 = {| custom_calls := custom_calls r;
          next_value := S (next_value r);
          preceding := AllocaOp (mkValue (next_value r) hole_type) :: preceding r;
          root := root r |}.
Proof.
  unfold map_target_operands. munfold.
  destruct (SmallVector_fill _ _) as [ops0|]; simpl; [|done].
  destruct (assign_mapped _ _ _ _ ops0) as [ops1|]; simpl; [|done].
  destruct (assign_mapped _ _ _ _ ops1) as [ops2|]; simpl; [|done].
  intros [= <- <- <-]. done.
Qed.

(** What reaches the call under a mapping is the hole or a source value. *)
Lemma map_target_operands_elems (op : CustomCall) mapping r operands num_results r1 :
  map_target_operands op mapping r = Some ((operands, num_results), r1) →
  Forall (λ v, v = mkValue (next_value r) hole_type ∨ v ∈ getArgs op ∨ v ∈ getOutput op)
         operands.
Proof.
  unfold map_target_operands. munfold.
  unfold SmallVector_fill. case_bool_decide; [|done]. simpl.
  destruct (assign_mapped _ _ _ _ (replicate _ _)) as [ops1|] eqn:Hrun1; simpl; [|done].
  destruct (assign_mapped _ _ _ _ ops1) as [ops2|] eqn:Hrun2; simpl; [|done].
  intros [= <- _ _]. apply Forall_forall. intros v Hv.
  destruct (assign_mapped_elems _ _ _ _ _ _ Hrun2 v Hv) as [Hv1|Hv1]; [|by right; right].
  destruct (assign_mapped_elems _ _ _ _ _ _ Hrun1 v Hv1) as [Hv0|Hv0]; [|by right; left].
  left. by apply elem_of_replicate in Hv0 as [-> _].
Qed.

(** C2: under a target-argument mapping the call receives an operand list of
    length [num_args + num_results] in which every slot starts out as the
    hole, source argument [i] sits in the slot the mapping names for it,
    source result [j] sits in slot [num_args] plus the slot the mapping names
    for it, every other slot holds the hole, and the call declares no
    results.  This is what every lowering that returns has done (the
    construction of the operand vector is the one step that can fail).  For
    the mapping [{0->2, 1->0}] over three argument slots and no results the
    lowering returns and the operands are [a1; hole; a0]. *)
Theorem custom_call_mapping_operand_list :
  (∀ (op : CustomCall) (mapping : CustomCallTargetArgMapping) (r r' : Rewriter)
     (result : LogicalResult),
     getTargetArgMapping op = Some mapping →
     verified_mapping op mapping →
     CustomCallOpLowering_matchAndRewrite op r = Some (result, r') →
     let num_args := getNumArgs mapping in
     let num_results := getNumResults mapping in
     let hole := mkValue (next_value r) hole_type in
     ∃ operands call,
       result = success ∧
       root r' = [CallOp call] ∧
       callee call = "xla.cpu.custom_call" ∧
       call_operands call = operands ∧
       call_results call = [] ∧
       length operands = Z.to_nat (num_args + num_results) ∧
       (∀ i t, getArgsToTargetArgs mapping !! i = Some t →
               operands !! Z.to_nat t = getArgs op !! i) ∧
       (∀ j t, getResultsToTargetResults mapping !! j = Some t →
               operands !! Z.to_nat (num_args + t) = getOutput op !! j) ∧
       (∀ s, s < length operands →
             Z.of_nat s ∉ getArgsToTargetArgs mapping →
             (Z.of_nat s - num_args)%Z ∉ getResultsToTargetResults mapping →
             operands !! s = Some hole))
  ∧
  (∀ (a0 a1 : Value) (name version : Attribute) (r : Rewriter),
     let op := {| getArgs := [a0; a1]; getOutput := [];
                  getCallTargetNameAttr := name; getApiVersionAttr := version;
                  getTargetArgMapping :=
                    Some {| getNumArgs := 3; getNumResults := 0;
                            getArgsToTargetArgs := [2; 0]%Z;
                            getResultsToTargetResults := [] |} |} in
     let hole := mkValue (next_value r) hole_type in
     ∃ call r',
       CustomCallOpLowering_matchAndRewrite op r = Some (success, r') ∧
       root r' = [CallOp call] ∧
       call_operands call = [a1; hole; a0] ∧
       call_results call = []).
Proof.
  split.
  - intros op mapping r r' result Hmap Hver Hlow num_args num_results hole.
    assert (is_Some (map_target_operands op mapping r)) as Hsome.
    { destruct (CustomCallOpLowering_inv _ _ _ _ Hlow) as (operands & nr & r1 & Hops).
      unfold call_operands_and_num_results in Hops. rewrite Hmap in Hops. by eexists. }
    pose proof (map_target_operands_fits op mapping r Hver Hsome) as Hfits.
    destruct (map_target_operands_spec op mapping r Hver Hfits)
      as (operands & Hrun & Hlen & Hargs & Hres & Hholes).
    assert (call_operands_and_num_results op r = Some
              ((operands, getNumResults mapping),
               {| custom_calls := custom_calls r; next_value := S (next_value r);
                  preceding := AllocaOp hole :: preceding r; root := root r |})) as Hops.
    { unfold call_operands_and_num_results. by rewrite Hmap. }
    rewrite (CustomCallOpLowering_run _ _ _ _ _ Hops) in Hlow.
    injection Hlow as <- <-.
    eexists operands, _. split_and!; done.
  - intros a0 a1 name version r op hole.
    eexists _, _. erewrite CustomCallOpLowering_run by reflexivity.
    split_and!; reflexivity.
Qed.

(** C2, at the mapping of the spec's example with one more unmapped slot in
    front of a mapped result. *)
Lemma custom_call_mapping_operand_list_witness :
  let a0 := mkValue 0 (MemRefType_get [4%Z] (FloatType 32)) in
  let out0 := mkValue 1 (MemRefType_get [4%Z] (FloatType 32)) in
  let mapping := {| getNumArgs := 2; getNumResults := 2;
                    getArgsToTargetArgs := [1%Z];
                    getResultsToTargetResults := [1%Z] |} in
  let op := {| getArgs := [a0]; getOutput := [out0];
               getCallTargetNameAttr := StringAttr "target";
               getApiVersionAttr := IntegerAttr 32 2;
               getTargetArgMapping := Some mapping |} in
  let r := {| custom_calls := ∅; next_value := 2; preceding := []; root := [CustomCallOp op] |} in
  verified_mapping op mapping ∧
  ∃ operands call r',
    CustomCallOpLowering_matchAndRewrite op r = Some (success, r') ∧
    root r' = [CallOp call] ∧
    callee call = "xla.cpu.custom_call" ∧
    call_operands call = operands ∧
    call_results call = [] ∧
    length operands = 4 ∧
    operands !! 1 = Some a0 ∧
    operands !! 3 = Some out0 ∧
    operands !! 0 = Some (mkValue 2 hole_type) ∧
    operands !! 2 = Some (mkValue 2 hole_type).
Proof.
  intros a0 out0 mapping op r.
  assert (verified_mapping op mapping) as Hver by compute_done.
  split; [exact Hver|].
  assert (∃ r', CustomCallOpLowering_matchAndRewrite op r = Some (success, r'))
    as [r' Hlow] by (eexists; vm_compute; reflexivity).
  destruct (proj1 custom_call_mapping_operand_list op mapping r r' success eq_refl Hver Hlow)
    as (operands & call & _ & Hroot & Hcallee & Hops & Hres & Hlen & Ha & Hr & Hh).
  exists operands, call, r'. split_and!; try done.
  - exact (Ha 0 1%Z eq_refl).
  - exact (Hr 0 1%Z eq_refl).
  - apply (Hh 0); [rewrite Hlen; vm_compute; lia| |]; cbn; intros Hin%list_elem_of_singleton; lia.
  - apply (Hh 2); [rewrite Hlen; vm_compute; lia| |]; cbn; intros Hin%list_elem_of_singleton; lia.
Defined.

(** ** Patterns on a module *)

Lemma applyPattern_at (p : Pattern) m f i fn op :
  functions m !! f = Some fn →
  front fn !! i = Some op →
  applyPattern p m f i =
    match p op (start m fn i op) with
    | Some (result, r) => Some (result, commit m f i fn r)
    | None => None
    end.
Proof. intros Hf Hi. unfold applyPattern. by rewrite Hf, Hi. Qed.

Lemma commit_lookup m f i fn r :
  f < length (functions m) →
  functions (commit m f i fn r) !! f =
    Some {| sym_name := sym_name fn;
            front := preceding r ++ root r ++ drop (S i) (front fn) |}.
Proof. intros Hf. unfold commit. simpl. by rewrite list_lookup_insert_eq. Qed.

Lemma commit_lookup_ne m f i fn r g :
  g ≠ f → functions (commit m f i fn r) !! g = functions m !! g.
Proof. intros Hne. unfold commit. simpl. by rewrite list_lookup_insert_ne. Qed.

(** A rewriter that changed nothing leaves the module as it was. *)
Lemma commit_start m f i fn op :
  functions m !! f = Some fn →
  front fn !! i = Some op →
  commit m f i fn (start m fn i op) = m.
Proof.
  intros Hf Hi. unfold commit, start. simpl.
  destruct fn as [name body], m as [fns decls supply]. simpl in *.
  rewrite (take_drop_middle _ _ _ Hi). f_equal. by apply list_insert_id.
Qed.

Lemma custom_call_mapped_step m f i fn op mapping result m' :
  functions m !! f = Some fn →
  front fn !! i = Some (CustomCallOp op) →
  getTargetArgMapping op = Some mapping →
  applyPattern CustomCallOpLowering m f i = Some (result, m') →
  ∃ operands,
    call_operands_and_num_results op (start m fn i (CustomCallOp op)) =
      Some ((operands, getNumResults mapping),
            {| custom_calls := declarations m;
               next_value := S (value_supply m);
               preceding := AllocaOp (mkValue (value_supply m) hole_type)
                              :: take i (front fn);
               root := [CustomCallOp op] |}) ∧
    result = success ∧
    functions m' !! f =
      Some {| sym_name := sym_name fn;
              front := AllocaOp (mkValue (value_supply m) hole_type)
                         :: take i (front fn)
                         ++ [CallOp {| callee := kCustomCallTarget;
                                       call_operands := operands;
                                       call_results := [];
                                       call_attrs :=
                                         custom_call_attr_dict op (getNumResults mapping) |}]
                         ++ drop (S i) (front fn) |} ∧
    (∀ g, g ≠ f → functions m' !! g = functions m !! g) ∧
    value_supply m' = S (value_supply m) ∧
    Forall (λ v, v = mkValue (value_supply m) hole_type
                 ∨ v ∈ getArgs op ∨ v ∈ getOutput op) operands.
Proof.
  intros Hf Hi Hmap Hrun.
  rewrite (applyPattern_at _ _ _ _ _ _ Hf Hi) in Hrun. simpl in Hrun.
  destruct (CustomCallOpLowering_matchAndRewrite op _) as [[res r']|] eqn:Hlow; [|done].
  destruct (CustomCallOpLowering_inv _ _ _ _ Hlow) as (operands & nr & r1 & Hops).
  rewrite (CustomCallOpLowering_run _ _ _ _ _ Hops) in Hlow.
  pose proof Hops as Hops'.
  unfold call_operands_and_num_results in Hops'. rewrite Hmap in Hops'.
  pose proof (map_target_operands_elems _ _ _ _ _ _ Hops') as Helems.
  apply map_target_operands_inv in Hops' as [-> ->].
  injection Hlow as <- <-. injection Hrun as <- <-.
  exists operands.
  split_and!; [done|done| |intros; by apply commit_lookup_ne|done|done].
  rewrite commit_lookup by (by eapply lookup_lt_Some). done.
Qed.

Lemma hole_allocas_step m m' f i fn op operands num_results :
  functions m !! f = Some fn →
  front fn !! i = Some (CustomCallOp op) →
  functions m' !! f =
    Some {| sym_name := sym_name fn;
            front := AllocaOp (mkValue (value_supply m) hole_type)
                       :: take i (front fn)
                       ++ [CallOp {| callee := kCustomCallTarget;
                                     call_operands := operands;
                                     call_results := [];
                                     call_attrs := custom_call_attr_dict op num_results |}]
                       ++ drop (S i) (front fn) |} →
  hole_allocas m' f = S (hole_allocas m f).
Proof.
  intros Hf Hi Hf'. unfold hole_allocas. rewrite Hf, Hf'. cbn [front].
  pose proof (take_drop_middle _ _ _ Hi) as Hsplit.
  set (pre := take i (front fn)) in *. set (post := drop (S i) (front fn)) in *.
  rewrite <- Hsplit.
  rewrite filter_cons_True
    by (cbn [is_hole_alloca getType]; by rewrite bool_decide_eq_true_2).
  rewrite !filter_app, !length_app.
  rewrite (filter_cons_False _ (CustomCallOp op)) by (simpl; congruence).
  rewrite (filter_cons_False _ (CallOp _)) by (simpl; congruence).
  simpl. rewrite ?length_app. lia.
Qed.

Lemma lowered_custom_calls_count f n m m' :
  lowered_custom_calls f n m m' →
  hole_allocas m' f = hole_allocas m f + n ∧
  value_supply m' = value_supply m + n.
Proof.
  induction 1 as [m|n m fn i op mapping m1 m2 Hf Hi Hmap Hrun _ [IH IHs]]; [lia|].
  destruct (custom_call_mapped_step _ _ _ _ _ _ _ _ Hf Hi Hmap Hrun)
    as (operands & _ & _ & Hf1 & _ & Hsupply & _).
  rewrite IH, IHs, Hsupply, (hole_allocas_step _ _ _ _ _ _ _ _ Hf Hi Hf1). lia.
Qed.

(** The allocations pile up in front of the function's operations, which
    keep their places but for the custom calls. *)
Lemma lowered_custom_calls_shape f n m m' :
  lowered_custom_calls f n m m' →
  ∀ fn, functions m !! f = Some fn →
  ∃ rest,
    functions m' !! f =
      Some {| sym_name := sym_name fn;
              front := hole_allocations (value_supply m) n ++ rest |} ∧
    length rest = length (front fn) ∧
    ∀ j o, front fn !! j = Some o → (∀ c, o ≠ CustomCallOp c) → rest !! j = Some o.
Proof.
  induction 1 as [m|n m fn0 i op mapping m1 m2 Hf0 Hi Hmap Hrun _ IH]; intros fn Hf.
  - exists (front fn). simpl. split_and!; [by destruct fn|done|done].
  - rewrite Hf0 in Hf. injection Hf as ->.
    destruct (custom_call_mapped_step _ _ _ _ _ _ _ _ Hf0 Hi Hmap Hrun)
      as (operands & _ & _ & Hf1 & _ & Hsupply & _).
    destruct (IH _ Hf1) as (rest1 & Hf2 & Hlen1 & Hkeep1). simpl in *.
    destruct rest1 as [|first rest]; [done|].
    assert (first = AllocaOp (mkValue (value_supply m) hole_type)) as ->.
    { specialize (Hkeep1 0 _ eq_refl). simpl in Hkeep1.
      by injection (Hkeep1 ltac:(done)) as ->. }
    exists rest. split_and!.
    + rewrite Hf2, Hsupply, <- app_assoc. done.
    + apply lookup_lt_Some in Hi.
      rewrite length_app, length_take in Hlen1. simpl in Hlen1.
      rewrite length_drop in Hlen1. lia.
    + intros j o Hj Hcc. apply (Hkeep1 (S j)); [|done].
      assert (j ≠ i) as Hne by (intros ->; rewrite Hi in Hj; injection Hj as <-; by eapply Hcc).
      rewrite lookup_cons_ne_0 by done. simpl.
      etrans; [|exact Hj].
      rewrite <- (list_lookup_insert_ne (front fn) i j
        (CallOp {| callee := kCustomCallTarget; call_operands := operands;
                   call_results := [];
                   call_attrs := custom_call_attr_dict op (getNumResults mapping) |}))
        by done.
      rewrite insert_take_drop by (by eapply lookup_lt_Some). done.
Qed.

(** C1 (as the code has it): every lowering of a generic custom call that
    carries a mapping creates one new zero-length [i8] stack allocation and
    puts it first in the enclosing function; every operand of the call that
    is not an argument or result of the custom call is that allocation.
    Nothing is cached: after [n] such lowerings in one function the
    function holds [n] more such allocations than before, [n] values of
    their own, and they are its first [n] operations, in front of the
    operations it had. *)
Theorem hole_alloca_per_lowered_custom_call :
  (∀ m f i fn op mapping result m',
     functions m !! f = Some fn →
     front fn !! i = Some (CustomCallOp op) →
     getTargetArgMapping op = Some mapping →
     applyPattern CustomCallOpLowering m f i = Some (result, m') →
     let hole :=
       mkValue (value_supply m) (MemRefType [0%Z] (IntegerType 8) IdentityLayout) in
     ∃ call,
       result = success ∧
       functions m' !! f =
         Some {| sym_name := sym_name fn;
                 front := AllocaOp hole :: take i (front fn) ++ [CallOp call]
                            ++ drop (S i) (front fn) |} ∧
       Forall (λ v, v = hole ∨ v ∈ getArgs op ∨ v ∈ getOutput op) (call_operands call) ∧
       value_supply m' = S (value_supply m))
  ∧
  (∀ f n m m' fn,
     lowered_custom_calls f n m m' →
     functions m !! f = Some fn →
     hole_allocas m' f = hole_allocas m f + n ∧
     value_supply m' = value_supply m + n ∧
     ∃ rest,
       functions m' !! f =
         Some {| sym_name := sym_name fn;
                 front := hole_allocations (value_supply m) n ++ rest |} ∧
       length rest = length (front fn)).
Proof.
  split.
  - intros m f i fn op mapping result m' Hf Hi Hmap Hrun hole.
    destruct (custom_call_mapped_step _ _ _ _ _ _ _ _ Hf Hi Hmap Hrun)
      as (operands & _ & Hres & Hf1 & _ & Hsupply & Helems).
    eexists. split_and!; [done|exact Hf1|exact Helems|done].
  - intros f n m m' fn Hsteps Hf.
    destruct (lowered_custom_calls_count _ _ _ _ Hsteps) as [Hcount Hsupply].
    destruct (lowered_custom_calls_shape _ _ _ _ Hsteps fn Hf) as (rest & Hf' & Hlen & _).
    split_and!; [done|done|]. by exists rest.
Qed.

(** C1 at the sample function: two lowerings, two allocations. *)
Lemma hole_alloca_per_lowered_custom_call_witness :
  ∃ m' rest,
    lowered_custom_calls 0 2 two_mapped_custom_calls m' ∧
    hole_allocas m' 0 = hole_allocas two_mapped_custom_calls 0 + 2 ∧
    value_supply m' = value_supply two_mapped_custom_calls + 2 ∧
    functions m' !! 0 =
      Some {| sym_name := "main";
              front := [AllocaOp (mkValue 3 hole_type); AllocaOp (mkValue 2 hole_type)]
                         ++ rest |} ∧
    length rest = 2.
Proof.
  assert (∃ m', lowered_custom_calls 0 2 two_mapped_custom_calls m') as [m' Hm'].
  { eexists.
    eapply (lowered_next 0 1 _ _ 0); [reflexivity|reflexivity|reflexivity| |].
    { vm_compute. reflexivity. }
    eapply (lowered_next 0 0 _ _ 2); [reflexivity|reflexivity|reflexivity| |].
    { vm_compute. reflexivity. }
    apply lowered_none. }
  destruct (proj2 hole_alloca_per_lowered_custom_call 0 2 _ _ _ Hm' eq_refl)
    as (Hcount & Hsupply & rest & Hf & Hlen).
  exists m', rest. split_and!; done.
Defined.

(** C1 as stated fails: the pass run on a function with two mapped custom
    calls leaves two zero-length [i8] stack allocations at its entry. *)
Lemma two_custom_calls_two_hole_allocas :
  ∃ m', runOnOperation 2 two_mapped_custom_calls = Some (PassSucceeded, m') ∧
        hole_allocas m' 0 = 2 ∧
        take 2 <$> (front <$> functions m' !! 0) =
          Some [AllocaOp (mkValue 3 hole_type); AllocaOp (mkValue 2 hole_type)].
Proof.
  eexists. split; [vm_compute; reflexivity|]. split; vm_compute; reflexivity.
Qed.

(** C10: whenever the lowering of a mapped custom call returns, it has put
    the call's own zero-length [i8] stack allocation first in the enclosing
    function, whether or not any slot stays unfilled, and every slot of the
    call's operand list that the mapping does not fill holds that one
    value. *)
Theorem custom_call_hole_alloca_unconditional m f i fn op mapping result m' :
  functions m !! f = Some fn →
  front fn !! i = Some (CustomCallOp op) →
  getTargetArgMapping op = Some mapping →
  verified_mapping op mapping →
  applyPattern CustomCallOpLowering m f i = Some (result, m') →
  let hole := mkValue (value_supply m) (MemRefType [0%Z] (IntegerType 8) IdentityLayout) in
  ∃ call,
    result = success ∧
    functions m' !! f =
      Some {| sym_name := sym_name fn;
              front := AllocaOp hole :: take i (front fn) ++ [CallOp call]
                         ++ drop (S i) (front fn) |} ∧
    length (call_operands call) = Z.to_nat (getNumArgs mapping + getNumResults mapping) ∧
    (∀ s, s < length (call_operands call) →
          Z.of_nat s ∉ getArgsToTargetArgs mapping →
          (Z.of_nat s - getNumArgs mapping)%Z ∉ getResultsToTargetResults mapping →
          call_operands call !! s = Some hole).
Proof.
  intros Hf Hi Hmap Hver Hrun hole.
  destruct (custom_call_mapped_step _ _ _ _ _ _ _ _ Hf Hi Hmap Hrun)
    as (operands & Hops & Hres & Hf1 & _ & _ & _).
  unfold call_operands_and_num_results in Hops. rewrite Hmap in Hops.
  pose proof (map_target_operands_fits op mapping _ Hver (mk_is_Some _ _ Hops)) as Hfits.
  destruct (map_target_operands_spec op mapping (start m fn i (CustomCallOp op)) Hver Hfits)
    as (operands' & Hrun' & Hlen & _ & _ & Hholes).
  rewrite Hops in Hrun'. injection Hrun' as <-.
  eexists. split_and!; [done|exact Hf1|exact Hlen|exact Hholes].
Qed.

(** C10 where the mapping fills every slot: the allocation is made all the
    same. *)
Lemma custom_call_hole_alloca_unconditional_witness :
  let a := mkValue 0 f32_8 in
  let b := mkValue 1 f32_8 in
  let mapping := {| getNumArgs := 2; getNumResults := 0;
                    getArgsToTargetArgs := [1; 0]%Z;
                    getResultsToTargetResults := [] |} in
  let op := {| getArgs := [a; b]; getOutput := [];
               getCallTargetNameAttr := StringAttr "target";
               getApiVersionAttr := IntegerAttr 32 2;
               getTargetArgMapping := Some mapping |} in
  let fn := {| sym_name := "main"; front := [CustomCallOp op] |} in
  let m := {| functions := [fn]; declarations := ∅; value_supply := 2 |} in
  verified_mapping op mapping ∧
  ∃ call m',
    applyPattern CustomCallOpLowering m 0 0 = Some (success, m') ∧
    functions m' !! 0 =
      Some {| sym_name := "main";
              front := [AllocaOp (mkValue 2 hole_type); CallOp call] |} ∧
    length (call_operands call) = 2.
Proof.
  intros a b mapping op fn m.
  assert (verified_mapping op mapping) as Hver by compute_done.
  split; [exact Hver|].
  assert (∃ m', applyPattern CustomCallOpLowering m 0 0 = Some (success, m'))
    as [m' Hrun] by (eexists; vm_compute; reflexivity).
  destruct (custom_call_hole_alloca_unconditional m 0 0 fn op mapping success m'
              eq_refl eq_refl eq_refl Hver Hrun) as (call & _ & Hfn & Hlen & _).
  exists call, m'. split_and!; done.
Defined.




(** ** All-reduce *)

Lemma normalize_operands_inv operands : ∀ acc_v acc_t r vs ts r',
  normalize_operands operands acc_v acc_t r = Some ((vs, ts), r') →
  ∃ new chunks,
    vs = acc_v ++ new ∧
    ts = acc_t ++ (getType <$> new) ∧
    Forall3 normalized operands new chunks ∧
    custom_calls r' = custom_calls r ∧
    preceding r' = preceding r ++ mjoin chunks ∧
    root r' = root r.
Proof.
  induction operands as [|operand rest IH]; intros acc_v acc_t r vs ts r' Hrun.
  - injection Hrun as <- <- <-. exists [], []. rewrite !app_nil_r.
    split_and!; try done. constructor.
  - simpl in Hrun. unfold mbind at 1, M_bind at 1 in Hrun.
    destruct (getType operand) as [shape elem layout| |] eqn:Hty; simpl in Hrun; try done.
    destruct (isIdentity layout) eqn:Hid.
    + apply IH in Hrun as (new & chunks & -> & -> & HF & Hreg & Hpre & Hroot).
      exists (operand :: new), ([] :: chunks). rewrite <- !app_assoc. simpl.
      rewrite Hty. split_and!; try done.
      constructor; [|done]. by eapply passed_through.
    + munfold.
      apply IH in Hrun as (new & chunks & -> & -> & HF & Hreg & Hpre & Hroot).
      simpl in *.
      eexists (_ :: new), (_ :: chunks). rewrite <- !app_assoc. simpl.
      split_and!; [reflexivity|reflexivity| |done| |done].
      * constructor; [|done]. by eapply copied.
      * rewrite Hpre, <- !app_assoc. reflexivity.
Qed.

Lemma normalize_operands_total operands : ∀ acc_v acc_t r,
  Forall (λ v, isa_MemRefType (getType v) = true) operands →
  is_Some (normalize_operands operands acc_v acc_t r).
Proof.
  induction operands as [|operand rest IH]; intros acc_v acc_t r Hall.
  - by eexists.
  - inversion Hall as [|? ? Hop Hrest]; subst. simpl.
    unfold mbind at 1, M_bind at 1.
    destruct (getType operand) as [shape elem layout| |]; simpl in *; try done.
    destruct (isIdentity layout); [by apply IH|]. munfold. by apply IH.
Qed.

Lemma normalize_operands_abort operands : ∀ acc_v acc_t r,
  Exists (λ v, isa_MemRefType (getType v) = false) operands →
  normalize_operands operands acc_v acc_t r = None.
Proof.
  induction operands as [|operand rest IH]; intros acc_v acc_t r Hex.
  - inversion Hex.
  - simpl. unfold mbind at 1, M_bind at 1.
    destruct (getType operand) as [shape elem layout| |] eqn:Hty; simpl; try done.
    assert (Exists (λ v, isa_MemRefType (getType v) = false) rest) as Hrest.
    { inversion Hex as [? ? Hop|]; subst; [|done]. by rewrite Hty in Hop. }
    destruct (isIdentity layout); [by apply IH|]. munfold. by apply IH.
Qed.

Lemma foldl_setAttr (l : list (string * Attribute)) : ∀ call,
  NoDup l.*1 →
  call_attrs (foldl (λ c attr, setAttr attr.1 attr.2 c) call l) =
    list_to_map l ∪ call_attrs call.
Proof.
  induction l as [|[k v] l IH]; intros call Hnd; simpl.
  - by rewrite (left_id_L ∅ (∪)).
  - inversion Hnd as [|? ? Hk Hnd']; subst. rewrite IH by done. simpl.
    rewrite <- insert_union_l. symmetry. apply insert_union_r.
    by apply not_elem_of_list_to_map_1.
Qed.

Lemma all_reduce_attrs_spec (attrs : gmap string Attribute) (call : Call) :
  callee (all_reduce_attrs attrs call) = callee call ∧
  call_operands (all_reduce_attrs attrs call) = call_operands call ∧
  call_results (all_reduce_attrs attrs call) = call_results call ∧
  call_attrs (all_reduce_attrs attrs call) =
    attrs ∪ <["op_id" := IntegerAttr 64 0]>
              (<["use_global_device_ids" := IntegerAttr 32 0]> (call_attrs call)).
Proof.
  unfold all_reduce_attrs.
  assert (∀ l c, callee (foldl (λ c attr, setAttr attr.1 attr.2 c) c l) = callee c ∧
            call_operands (foldl (λ c attr, setAttr attr.1 attr.2 c) c l) = call_operands c ∧
            call_results (foldl (λ c attr, setAttr attr.1 attr.2 c) c l) = call_results c)
    as Hkeep.
  { induction l as [|a l IH]; intros c; [done|]. simpl.
    destruct (IH (setAttr a.1 a.2 c)) as (-> & -> & ->). done. }
  destruct (Hkeep (map_to_list attrs)
              (setAttr "op_id" (getI64IntegerAttr 0)
                 (setAttr "use_global_device_ids" (getI32IntegerAttr 0) call)))
    as (-> & -> & ->).
  split_and!; try done.
  rewrite foldl_setAttr by apply NoDup_fst_map_to_list.
  by rewrite list_to_map_to_list.
Qed.

Lemma all_reduce_call attrs name operands :
  all_reduce_attrs attrs (build_CallOp name [] operands) =
    {| callee := name; call_operands := operands; call_results := [];
       call_attrs := attrs ∪ all_reduce_defaults |}.
Proof.
  destruct (all_reduce_attrs_spec attrs (build_CallOp name [] operands))
    as (Hc & Ho & Hr & Ha).
  destruct (all_reduce_attrs _ _) as [c o rs a]. simpl in *. by subst.
Qed.

Lemma AllReduceLowering_success_inv operands attrs r r' :
  AllReduceLowering_matchAndRewrite operands attrs r = Some (success, r') →
  ∃ first new_operands created,
    head operands = Some first ∧
    isa_MemRefType (getType first) = true ∧
    Forall3 normalized operands new_operands created ∧
    custom_calls r' =
      registry_after kCallTarget_all_reduce (getType <$> new_operands) [] (custom_calls r) ∧
    preceding r' =
      preceding r ++ mjoin created
        ++ [CallOp {| callee := kCallTarget_all_reduce;
                      call_operands := new_operands;
                      call_results := [];
                      call_attrs := attrs ∪ all_reduce_defaults |}] ∧
    root r' = [].
Proof.
  unfold AllReduceLowering_matchAndRewrite. unfold mbind at 1, M_bind at 1.
  destruct (head operands) as [first|]; simpl; [|done].
  destruct (isa_MemRefType (getType first)) eqn:Hfirst; simpl; [|done].
  unfold mbind at 1, M_bind at 1.
  destruct (normalize_operands operands [] [] r) as [[[vs ts] r1]|] eqn:Hnorm; [|done].
  apply normalize_operands_inv in Hnorm
    as (new & created & -> & -> & HF & Hreg & Hpre & Hroot).
  unfold mbind at 1, M_bind at 1. rewrite GetOrCreate_run. munfold.
  rewrite all_reduce_call. intros [= <-]. simpl.
  exists first, new, created. rewrite Hreg, Hpre, <- app_assoc. done.
Qed.

Lemma AllReduceLowering_run operands attrs r first :
  head operands = Some first →
  isa_MemRefType (getType first) = true →
  Forall (λ v, isa_MemRefType (getType v) = true) operands →
  ∃ r', AllReduceLowering_matchAndRewrite operands attrs r = Some (success, r').
Proof.
  intros Hhead Hfirst Hall.
  unfold AllReduceLowering_matchAndRewrite. unfold mbind at 1, M_bind at 1.
  rewrite Hhead. simpl. rewrite Hfirst. simpl.
  unfold mbind at 1, M_bind at 1.
  destruct (normalize_operands_total operands [] [] r Hall) as [[[vs ts] r1] ->].
  unfold mbind at 1, M_bind at 1. rewrite GetOrCreate_run. munfold. by eexists.
Qed.








(** C4: the all-reduce call gets [use_global_device_ids] as the 32-bit
    integer 0 and [op_id] as the 64-bit integer 0 first and every attribute of
    the source operation after that, so an attribute of the source operation
    wins over a default of the same name: without a source [op_id] the call
    has [op_id = 0], with a source [op_id = 7] it has [op_id = 7]. *)
Theorem all_reduce_attribute_defaults operands attrs r r' :
  AllReduceLowering_matchAndRewrite operands attrs r = Some (success, r') →
  ∃ call,
    last (preceding r') = Some (CallOp call) ∧
    (∀ name value, attrs !! name = Some value → call_attrs call !! name = Some value) ∧
    (attrs !! "use_global_device_ids" = None →
     call_attrs call !! "use_global_device_ids" = Some (IntegerAttr 32 0)) ∧
    (attrs !! "op_id" = None → call_attrs call !! "op_id" = Some (IntegerAttr 64 0)) ∧
    (attrs !! "op_id" = Some (IntegerAttr 64 7) →
     call_attrs call !! "op_id" = Some (IntegerAttr 64 7)) ∧
    (∀ name, attrs !! name = None → name ≠ "use_global_device_ids" → name ≠ "op_id" →
             call_attrs call !! name = None).
Proof.
  intros Hrun.
  destruct (AllReduceLowering_success_inv _ _ _ _ Hrun)
    as (first & new & created & _ & _ & _ & _ & Hpre & _).
  eexists. rewrite Hpre, !app_assoc, last_snoc. split; [reflexivity|]. simpl.
  assert (∀ name value, attrs !! name = Some value →
            (attrs ∪ all_reduce_defaults) !! name = Some value) as Hcopy.
  { intros name value Hl. by apply lookup_union_Some_l. }
  split_and!.
  - exact Hcopy.
  - intros Hno. by rewrite lookup_union_r.
  - intros Hno. by rewrite lookup_union_r.
  - apply Hcopy.
  - intros name Hno Hne1 Hne2. rewrite lookup_union_r by done.
    unfold all_reduce_defaults. by rewrite !lookup_insert_ne.
Qed.

(** C4 on the two operations of the spec: no [op_id], and [op_id = 7]. *)
Lemma all_reduce_attribute_defaults_witness :
  let r := {| custom_calls := ∅; next_value := 1; preceding := [];
              root := [AllReduceOp [contiguous_operand] ∅] |} in
  (∃ r' call,
     AllReduceLowering_matchAndRewrite [contiguous_operand] ∅ r = Some (success, r') ∧
     last (preceding r') = Some (CallOp call) ∧
     call_attrs call !! "op_id" = Some (IntegerAttr 64 0)) ∧
  (∃ r' call,
     AllReduceLowering_matchAndRewrite [contiguous_operand]
       {["op_id" := IntegerAttr 64 7]} r = Some (success, r') ∧
     last (preceding r') = Some (CallOp call) ∧
     call_attrs call !! "op_id" = Some (IntegerAttr 64 7)).
Proof.
  intros r. split.
  - assert (∃ r', AllReduceLowering_matchAndRewrite [contiguous_operand] ∅ r
                  = Some (success, r')) as [r' Hrun]
      by (eapply AllReduceLowering_run; [reflexivity|reflexivity|by repeat constructor]).
    destruct (all_reduce_attribute_defaults _ _ _ _ Hrun)
      as (call & Hlast & _ & _ & Hdef & _).
    exists r', call. split_and!; [done|done|]. by apply Hdef.
  - assert (∃ r', AllReduceLowering_matchAndRewrite [contiguous_operand]
                    {["op_id" := IntegerAttr 64 7]} r
                  = Some (success, r')) as [r' Hrun]
      by (eapply AllReduceLowering_run; [reflexivity|reflexivity|by repeat constructor]).
    destruct (all_reduce_attribute_defaults _ _ _ _ Hrun)
      as (call & Hlast & _ & _ & _ & Hseven & _).
    exists r', call. split_and!; [done|done|]. by apply Hseven.
Defined.

Lemma applyPattern_failure_at (p : Pattern) m f i fn op :
  functions m !! f = Some fn →
  front fn !! i = Some op →
  p op (start m fn i op) = Some (failure, start m fn i op) →
  applyPattern p m f i = Some (failure, m).
Proof.
  intros Hf Hi Hp. rewrite (applyPattern_at _ _ _ _ _ _ Hf Hi), Hp.
  by rewrite (commit_start _ _ _ _ _ Hf Hi).
Qed.

Lemma AllReduceLowering_no_match operands attrs r first :
  head operands = Some first →
  isa_MemRefType (getType first) = false →
  AllReduceLowering_matchAndRewrite operands attrs r = Some (failure, r).
Proof.
  intros Hhead Hfirst. unfold AllReduceLowering_matchAndRewrite.
  unfold mbind at 1, M_bind at 1. rewrite Hhead. simpl. by rewrite Hfirst.
Qed.

(** C5: an all-reduce whose first operand is not a buffer is not matched: the
    pattern answers [failure] without aborting and the module is exactly what
    it was - no call, allocation, copy or declaration appears - and no other
    pattern of the pass touches it either. *)
Theorem all_reduce_non_buffer_no_match m f i fn operands attrs first :
  functions m !! f = Some fn →
  front fn !! i = Some (AllReduceOp operands attrs) →
  head operands = Some first →
  isa_MemRefType (getType first) = false →
  applyPattern AllReduceLowering m f i = Some (failure, m) ∧
  applyPatterns patterns m f i = Some (failure, m).
Proof.
  intros Hf Hi Hhead Hfirst.
  assert (applyPattern AllReduceLowering m f i = Some (failure, m)) as Hall.
  { eapply applyPattern_failure_at; [done|done|]. simpl.
    by eapply AllReduceLowering_no_match. }
  split; [done|].
  unfold patterns. cbn [applyPatterns].
  repeat first [rewrite Hall
               |rewrite (applyPattern_failure_at _ _ _ _ _ _ Hf Hi) by done].
  done.
Qed.

(** C5 on an all-reduce of a tensor. *)
Lemma all_reduce_non_buffer_no_match_witness :
  isa_MemRefType (getType tensor_operand) = false ∧
  applyPattern AllReduceLowering tensor_all_reduce 0 0 = Some (failure, tensor_all_reduce) ∧
  applyPatterns patterns tensor_all_reduce 0 0 = Some (failure, tensor_all_reduce).
Proof.
  split; [reflexivity|].
  exact (all_reduce_non_buffer_no_match tensor_all_reduce 0 0 _ _ _ tensor_operand
           eq_refl eq_refl eq_refl eq_refl).
Defined.

(** C9: past the guard on the first operand the lowering casts the type of
    every operand to a buffer type and checks nothing.  When all operands are
    buffers the cast never fails and the lowering succeeds; when the first
    operand is a buffer and some later one is not, the guard lets the
    operation through and the cast aborts the run. *)
Theorem all_reduce_cast_unchecked :
  (∀ operands new_operands new_operand_types r,
     Forall (λ v, isa_MemRefType (getType v) = true) operands →
     is_Some (normalize_operands operands new_operands new_operand_types r)) ∧
  (∀ operands attrs r first,
     head operands = Some first →
     Forall (λ v, isa_MemRefType (getType v) = true) operands →
     ∃ r', AllReduceLowering_matchAndRewrite operands attrs r = Some (success, r')) ∧
  (∀ operands attrs r first,
     head operands = Some first →
     isa_MemRefType (getType first) = true →
     Exists (λ v, isa_MemRefType (getType v) = false) operands →
     AllReduceLowering_matchAndRewrite operands attrs r = None) ∧
  (∀ attrs r,
     AllReduceLowering_matchAndRewrite [contiguous_operand; tensor_operand] attrs r = None).
Proof.
  split_and!.
  - intros. by apply normalize_operands_total.
  - intros operands attrs r first Hhead Hall.
    eapply AllReduceLowering_run; [done| |done].
    destruct operands as [|v rest]; [done|]. injection Hhead as ->.
    by inversion Hall.
  - intros operands attrs r first Hhead Hfirst Hex.
    unfold AllReduceLowering_matchAndRewrite. unfold mbind at 1, M_bind at 1.
    rewrite Hhead. simpl. rewrite Hfirst. simpl. unfold mbind at 1, M_bind at 1.
    by rewrite normalize_operands_abort.
  - intros attrs r. reflexivity.
Qed.

(** C9 on two buffers. *)
Lemma all_reduce_cast_unchecked_witness :
  let operands := [contiguous_operand; strided_operand] in
  let r := {| custom_calls := ∅; next_value := 2; preceding := [];
              root := [AllReduceOp operands ∅] |} in
  Forall (λ v, isa_MemRefType (getType v) = true) operands ∧
  is_Some (normalize_operands operands [] [] r) ∧
  ∃ r', AllReduceLowering_matchAndRewrite operands ∅ r = Some (success, r').
Proof.
  intros operands r.
  assert (Forall (λ v, isa_MemRefType (getType v) = true) operands) as Hall
    by (repeat constructor).
  destruct all_reduce_cast_unchecked as (Htotal & Hrun & _).
  split_and!; [exact Hall|exact (Htotal _ _ _ _ Hall)|].
  exact (Hrun operands ∅ r contiguous_operand eq_refl Hall).
Defined.

(** ** Infeed and outfeed *)

Lemma LowerXfeed_at (p : Pattern) target m f i fn op operands :
  functions m !! f = Some fn →
  front fn !! i = Some op →
  p op = LowerXfeed operands target →
  ∃ m',
    applyPattern p m f i = Some (success, m') ∧
    functions m' =
      <[f := {| sym_name := sym_name fn;
                front := <[i := CallOp {| callee := target;
                                          call_operands := operands;
                                          call_results := [];
                                          call_attrs := ∅ |}]> (front fn) |}]>
        (functions m) ∧
    declarations m' = registry_after target (getType <$> operands) [] (declarations m) ∧
    value_supply m' = value_supply m.
Proof.
  intros Hf Hi Hp.
  eexists. rewrite (applyPattern_at _ _ _ _ _ _ Hf Hi), Hp.
  unfold LowerXfeed. unfold mbind at 1, M_bind at 1. rewrite GetOrCreate_run.
  munfold. split; [reflexivity|].
  unfold commit. simpl. split_and!; [|done|done].
  rewrite (insert_take_drop (front fn)) by (by eapply lookup_lt_Some). done.
Qed.

Lemma registry_after_spec name operand_types result_types reg :
  (reg !! name = None →
   registry_after name operand_types result_types reg !! name =
     Some {| getInputs := operand_types; getResults := result_types |}) ∧
  (is_Some (reg !! name) →
   registry_after name operand_types result_types reg = reg) ∧
  (∀ other, other ≠ name →
   registry_after name operand_types result_types reg !! other = reg !! other).
Proof.
  unfold registry_after. split_and!.
  - intros ->. by rewrite lookup_insert_eq.
  - by intros [ty ->].
  - intros other Hne. destruct (reg !! name); [done|]. by rewrite lookup_insert_ne.
Qed.

(** C7 (as the code has it): an infeed (an outfeed) is replaced, where it
    stood, by one call to [xla.cpu.infeed] ([xla.cpu.outfeed]) that takes
    the operands as they were and in their order, has no results and no
    attributes, and the rest of the functions stays as it was.  The callee
    is asked of the registry by name, with the operand types as parameter
    types and no results: a registry without a declaration of that name
    gets one with exactly this signature; a registry that has one keeps it
    and stays as it was, whatever its parameter types; declarations of
    other names are never touched. *)
Theorem xfeed_lowering m f i fn operands attrs :
  functions m !! f = Some fn →
  let signature := {| getInputs := getType <$> operands; getResults := [] |} in
  let replaced target :=
    <[f := {| sym_name := sym_name fn;
              front := <[i := CallOp {| callee := target;
                                        call_operands := operands;
                                        call_results := [];
                                        call_attrs := ∅ |}]> (front fn) |}]>
      (functions m) in
  let lowered_by (pattern : Pattern) target :=
    ∃ m',
      applyPattern pattern m f i = Some (success, m') ∧
      functions m' = replaced target ∧
      (declarations m !! target = None →
       declarations m' !! target = Some signature) ∧
      (is_Some (declarations m !! target) → declarations m' = declarations m) ∧
      (∀ name, name ≠ target → declarations m' !! name = declarations m !! name) ∧
      value_supply m' = value_supply m in
  (front fn !! i = Some (InfeedOp operands attrs) →
   lowered_by InfeedOpLowering "xla.cpu.infeed")
  ∧
  (front fn !! i = Some (OutfeedOp operands attrs) →
   lowered_by OutfeedOpLowering "xla.cpu.outfeed").
Proof.
  intros Hf signature replaced lowered_by. split; intros Hi.
  - destruct (LowerXfeed_at InfeedOpLowering kCallTarget_infeed m f i fn _ operands
                Hf Hi eq_refl) as (m' & Hrun & Hfns & Hdecl & Hsupply).
    destruct (registry_after_spec kCallTarget_infeed (getType <$> operands) []
                (declarations m)) as (Hnew & Hkept & Hothers).
    exists m'. rewrite Hdecl. split_and!; done.
  - destruct (LowerXfeed_at OutfeedOpLowering kCallTarget_outfeed m f i fn _ operands
                Hf Hi eq_refl) as (m' & Hrun & Hfns & Hdecl & Hsupply).
    destruct (registry_after_spec kCallTarget_outfeed (getType <$> operands) []
                (declarations m)) as (Hnew & Hkept & Hothers).
    exists m'. rewrite Hdecl. split_and!; done.
Qed.

(** C7 on the spec's scenario: an infeed of [(f32[4,4], f32[8])]. *)
Lemma xfeed_lowering_witness :
  let operands := [mkValue 0 f32_4x4; mkValue 1 f32_8] in
  ∃ m',
    applyPattern InfeedOpLowering infeed_module 0 0 = Some (success, m') ∧
    functions m' =
      [{| sym_name := "main";
          front := [CallOp {| callee := "xla.cpu.infeed"; call_operands := operands;
                              call_results := []; call_attrs := ∅ |}] |}] ∧
    declarations m' !! "xla.cpu.infeed" =
      Some {| getInputs := [f32_4x4; f32_8]; getResults := [] |}.
Proof.
  intros operands.
  destruct (proj1 (xfeed_lowering infeed_module 0 0 _ operands
                     {["config" := StringAttr ""]} eq_refl) eq_refl)
    as (m' & Hrun & Hfns & Hdecl & _).
  exists m'. split_and!; [done|done|]. by apply Hdecl.
Defined.

(** C7 as stated fails: the pass run on a function with an infeed of
    [f32[4,4]] and an infeed of [f32[8]] replaces both by calls to
    [xla.cpu.infeed], and the declaration keeps the parameter type of the
    first, which is not the operand type of the second call. *)
Lemma second_infeed_keeps_first_declaration :
  ∃ m' call,
    runOnOperation 2 two_infeeds = Some (PassSucceeded, m') ∧
    (functions m' !! 0 ≫= λ fn, front fn !! 1) = Some (CallOp call) ∧
    callee call = "xla.cpu.infeed" ∧
    call_operands call = [mkValue 1 f32_8] ∧
    declarations m' !! "xla.cpu.infeed" =
      Some {| getInputs := [f32_4x4]; getResults := [] |} ∧
    (getInputs <$> declarations m' !! "xla.cpu.infeed") ≠
      Some (getType <$> call_operands call).
Proof.
  eexists _, _. split; [vm_compute; reflexivity|].
  split_and!; [reflexivity|reflexivity|reflexivity|vm_compute; reflexivity|].
  vm_compute. discriminate.
Qed.

(** ** The pass *)

Lemma sum_list_with_insert {A} (g : A → nat) (l : list A) i x y :
  l !! i = Some x →
  sum_list_with g (<[i := y]> l) + g x = sum_list_with g l + g y.
Proof.
  revert i. induction l as [|a l IH]; intros [|i] Hi; simpl in *; try done.
  - injection Hi as ->. lia.
  - specialize (IH i Hi). lia.
Qed.

Lemma count_ops_app kind l1 l2 :
  count_ops kind (l1 ++ l2) = count_ops kind l1 + count_ops kind l2.
Proof. unfold count_ops. by rewrite filter_app, length_app. Qed.

Lemma count_ops_cons kind o l :
  count_ops kind (o :: l) = (if kind o then 1 else 0) + count_ops kind l.
Proof.
  unfold count_ops. destruct (kind o) eqn:Hk.
  - by rewrite filter_cons_True.
  - rewrite filter_cons_False; [done|]. by rewrite Hk.
Qed.

Lemma normalized_not_matchable operands new_operands created :
  Forall3 normalized operands new_operands created →
  count_ops matchable (mjoin created) = 0.
Proof.
  induction 1 as [|? ? ? ? ? ? Hn _ IH]; [done|].
  simpl. rewrite count_ops_app, IH. by destruct Hn.
Qed.

Lemma call_operands_and_num_results_inv op r operands num_results r1 :
  call_operands_and_num_results op r = Some ((operands, num_results), r1) →
  count_ops matchable (preceding r1) = count_ops matchable (preceding r).
Proof.
  unfold call_operands_and_num_results.
  destruct (getTargetArgMapping op) as [mapping|].
  - intros [_ ->]%map_target_operands_inv. simpl. by rewrite count_ops_cons.
  - by intros [= _ _ <-].
Qed.

(** What a successful pattern leaves behind: the matched operation was
    matchable, what replaces it is not, and nothing matchable was put in
    front of it. *)
Lemma pattern_success (p : Pattern) op r r' :
  p ∈ patterns →
  p op r = Some (success, r') →
  matchable op = true ∧
  count_ops matchable (preceding r') = count_ops matchable (preceding r) ∧
  count_ops matchable (root r') = 0.
Proof.
  unfold patterns. rewrite !elem_of_cons, elem_of_nil.
  intros [->|[->|[->|[->|[->|[->|[]]]]]]] Hrun.
  - destruct op; try discriminate. simpl in Hrun. unfold LowerXfeed in Hrun.
    unfold mbind at 1, M_bind at 1 in Hrun. rewrite GetOrCreate_run in Hrun.
    munfold. by injection Hrun as <-.
  - destruct op; try discriminate. simpl in Hrun. unfold LowerXfeed in Hrun.
    unfold mbind at 1, M_bind at 1 in Hrun. rewrite GetOrCreate_run in Hrun.
    munfold. by injection Hrun as <-.
  - destruct op as [op| | | | | | | | |]; try discriminate. simpl in Hrun.
    destruct (CustomCallOpLowering_inv _ _ _ _ Hrun) as (operands & nr & r1 & Hops).
    rewrite (CustomCallOpLowering_run _ _ _ _ _ Hops) in Hrun.
    injection Hrun as <-. simpl.
    by rewrite (call_operands_and_num_results_inv _ _ _ _ _ Hops).
  - destruct op as [| | | | |operands attrs| | | |]; try discriminate. simpl in Hrun.
    destruct (AllReduceLowering_success_inv _ _ _ _ Hrun)
      as (first & new & created & Hhead & Hfirst & HF & _ & Hpre & Hroot).
    simpl. rewrite Hhead, Hfirst, Hpre, Hroot, !count_ops_app.
    rewrite (normalized_not_matchable _ _ _ HF). split_and!; [done| |done].
    rewrite count_ops_cons. simpl. unfold count_ops. simpl. lia.
  - destruct op; try discriminate. simpl in Hrun.
    unfold IdOpLowering_matchAndRewrite in Hrun.
    unfold mbind at 1, M_bind at 1 in Hrun. rewrite GetOrCreate_run in Hrun.
    munfold. by injection Hrun as <-.
  - destruct op; try discriminate. simpl in Hrun.
    unfold IdOpLowering_matchAndRewrite in Hrun.
    unfold mbind at 1, M_bind at 1 in Hrun. rewrite GetOrCreate_run in Hrun.
    munfold. by injection Hrun as <-.
Qed.

(** A pattern that answers [failure] has changed nothing. *)
Lemma pattern_failure (p : Pattern) op r r' :
  p ∈ patterns →
  p op r = Some (failure, r') →
  r' = r.
Proof.
  unfold patterns. rewrite !elem_of_cons, elem_of_nil.
  intros [->|[->|[->|[->|[->|[->|[]]]]]]] Hrun.
  - destruct op; simpl in Hrun; try (by injection Hrun as <-).
    unfold LowerXfeed in Hrun.
    unfold mbind at 1, M_bind at 1 in Hrun. rewrite GetOrCreate_run in Hrun.
    munfold. discriminate.
  - destruct op; simpl in Hrun; try (by injection Hrun as <-).
    unfold LowerXfeed in Hrun.
    unfold mbind at 1, M_bind at 1 in Hrun. rewrite GetOrCreate_run in Hrun.
    munfold. discriminate.
  - destruct op as [op| | | | | | | | |]; simpl in Hrun; try (by injection Hrun as <-).
    destruct (CustomCallOpLowering_inv _ _ _ _ Hrun) as (operands & nr & r1 & Hops).
    rewrite (CustomCallOpLowering_run _ _ _ _ _ Hops) in Hrun. discriminate.
  - destruct op as [| | | | |operands attrs| | | |]; simpl in Hrun;
      try (by injection Hrun as <-).
    unfold AllReduceLowering_matchAndRewrite in Hrun.
    unfold mbind at 1, M_bind at 1 in Hrun.
    destruct (head operands) as [first|]; simpl in Hrun; [|done].
    destruct (isa_MemRefType (getType first)); simpl in Hrun;
      [|by injection Hrun as <-].
    unfold mbind at 1, M_bind at 1 in Hrun.
    destruct (normalize_operands operands [] [] r) as [[[vs ts] r1]|]; [|done].
    unfold mbind at 1, M_bind at 1 in Hrun. rewrite GetOrCreate_run in Hrun.
    munfold. discriminate.
  - destruct op; simpl in Hrun; try (by injection Hrun as <-).
    unfold IdOpLowering_matchAndRewrite in Hrun.
    unfold mbind at 1, M_bind at 1 in Hrun. rewrite GetOrCreate_run in Hrun.
    munfold. discriminate.
  - destruct op; simpl in Hrun; try (by injection Hrun as <-).
    unfold IdOpLowering_matchAndRewrite in Hrun.
    unfold mbind at 1, M_bind at 1 in Hrun. rewrite GetOrCreate_run in Hrun.
    munfold. discriminate.
Qed.

Lemma applyPattern_success_count (p : Pattern) m f i m' :
  p ∈ patterns →
  applyPattern p m f i = Some (success, m') →
  count_matchable m = S (count_matchable m').
Proof.
  intros Hp Hrun. unfold applyPattern in Hrun.
  destruct (functions m !! f) as [fn|] eqn:Hf; [|done].
  destruct (front fn !! i) as [op|] eqn:Hi; [|done].
  destruct (p op (start m fn i op)) as [[[] r]|] eqn:Hpat; [|done|done].
  injection Hrun as <-.
  destruct (pattern_success _ _ _ _ Hp Hpat) as (Hop & Hpre & Hroot).
  unfold count_matchable, commit. simpl.
  pose proof (sum_list_with_insert (λ fn, count_ops matchable (front fn)) (functions m) f fn
      {| sym_name := sym_name fn; front := preceding r ++ root r ++ drop (S i) (front fn) |}
      Hf) as Hsum.
  assert (count_ops matchable (front fn) =
            count_ops matchable (take i (front fn)) + 1
            + count_ops matchable (drop (S i) (front fn))) as Hsplit.
  { rewrite <- (take_drop_middle _ _ _ Hi) at 1.
    rewrite count_ops_app, count_ops_cons, Hop. lia. }
  simpl in Hsum. rewrite !count_ops_app, Hpre, Hroot, Hsplit in Hsum.
  simpl in Hsum. lia.
Qed.

Lemma applyPattern_failure_same (p : Pattern) m f i m' :
  p ∈ patterns →
  applyPattern p m f i = Some (failure, m') →
  m' = m.
Proof.
  intros Hp Hrun. unfold applyPattern in Hrun.
  destruct (functions m !! f) as [fn|] eqn:Hf; [|by injection Hrun].
  destruct (front fn !! i) as [op|] eqn:Hi; [|by injection Hrun].
  destruct (p op (start m fn i op)) as [[[] r]|] eqn:Hpat; [done| |done].
  injection Hrun as <-. rewrite (pattern_failure _ _ _ _ Hp Hpat).
  by apply commit_start.
Qed.

Lemma applyPatterns_inv (ps : list Pattern) m f i result m' :
  ps ⊆ patterns →
  applyPatterns ps m f i = Some (result, m') →
  match result with
  | success => ∃ p, p ∈ ps ∧ applyPattern p m f i = Some (success, m')
  | failure => m' = m ∧ ∀ p, p ∈ ps → applyPattern p m f i = Some (failure, m)
  end.
Proof.
  induction ps as [|p ps IH]; intros Hsub Hrun; simpl in Hrun.
  - injection Hrun as <- <-. split; [done|]. intros p Hp. by apply elem_of_nil in Hp.
  - destruct (applyPattern p m f i) as [[[] m1]|] eqn:Hp; [| |done].
    + injection Hrun as <- <-. exists p. split; [left|done].
    + assert (m1 = m) as -> by (eapply applyPattern_failure_same; [|done]; set_solver).
      apply IH in Hrun; [|set_solver]. destruct result.
      * destruct Hrun as (q & Hq & Hrun). exists q. split; [by right|done].
      * destruct Hrun as [-> Hall]. split; [done|].
        intros q [->|Hq]%elem_of_cons; [done|by apply Hall].
Qed.

Lemma sum_list_with_delete {A} (g : A → nat) (l : list A) i x :
  l !! i = Some x →
  sum_list_with g (delete i l) + g x = sum_list_with g l.
Proof.
  revert i. induction l as [|a l IH]; intros [|i] Hi; simpl in *; try done.
  - injection Hi as ->. lia.
  - specialize (IH i Hi). lia.
Qed.

Lemma registry_after_subseteq name operand_types result_types
    (reg : gmap string FunctionType) :
  reg ⊆ registry_after name operand_types result_types reg.
Proof.
  unfold registry_after. destruct (reg !! name) eqn:Hreg; [done|].
  by apply insert_subseteq.
Qed.

Lemma normalized_work operands new_operands created :
  Forall3 normalized operands new_operands created →
  sum_list_with work (mjoin created) ≤ length operands.
Proof.
  induction 1 as [|? ? ? ? ? ? Hn _ IH]; [done|].
  simpl. rewrite sum_list_with_app. destruct Hn; simpl; lia.
Qed.

(** What a successful pattern costs: the operations it leaves in place of
    the matched one and in front of it weigh less than the matched one, and
    it only adds to the registry. *)
Lemma pattern_work (p : Pattern) op r r' :
  p ∈ patterns →
  p op r = Some (success, r') →
  sum_list_with work (preceding r') + sum_list_with work (root r')
    < sum_list_with work (preceding r) + work op ∧
  custom_calls r ⊆ custom_calls r'.
Proof.
  unfold patterns. rewrite !elem_of_cons, elem_of_nil.
  intros [->|[->|[->|[->|[->|[->|[]]]]]]] Hrun.
  - destruct op; try discriminate. simpl in Hrun. unfold LowerXfeed in Hrun.
    unfold mbind at 1, M_bind at 1 in Hrun. rewrite GetOrCreate_run in Hrun.
    munfold. injection Hrun as <-. simpl. split; [lia|apply registry_after_subseteq].
  - destruct op; try discriminate. simpl in Hrun. unfold LowerXfeed in Hrun.
    unfold mbind at 1, M_bind at 1 in Hrun. rewrite GetOrCreate_run in Hrun.
    munfold. injection Hrun as <-. simpl. split; [lia|apply registry_after_subseteq].
  - destruct op as [op| | | | | | | | |]; try discriminate. simpl in Hrun.
    destruct (CustomCallOpLowering_inv _ _ _ _ Hrun) as (operands & nr & r1 & Hops).
    rewrite (CustomCallOpLowering_run _ _ _ _ _ Hops) in Hrun.
    injection Hrun as <-. simpl.
    unfold call_operands_and_num_results in Hops.
    destruct (getTargetArgMapping op) as [mapping|].
    + apply map_target_operands_inv in Hops as [_ ->]. simpl.
      split; [lia|apply registry_after_subseteq].
    + injection Hops as _ _ <-. split; [lia|apply registry_after_subseteq].
  - destruct op as [| | | | |operands attrs| | | |]; try discriminate. simpl in Hrun.
    destruct (AllReduceLowering_success_inv _ _ _ _ Hrun)
      as (first & new & created & _ & _ & HF & Hreg & Hpre & Hroot).
    rewrite Hpre, Hroot, Hreg, !sum_list_with_app. simpl.
    pose proof (normalized_work _ _ _ HF).
    split; [lia|apply registry_after_subseteq].
  - destruct op; try discriminate. simpl in Hrun.
    unfold IdOpLowering_matchAndRewrite in Hrun.
    unfold mbind at 1, M_bind at 1 in Hrun. rewrite GetOrCreate_run in Hrun.
    munfold. injection Hrun as <-. simpl. split; [lia|apply registry_after_subseteq].
  - destruct op; try discriminate. simpl in Hrun.
    unfold IdOpLowering_matchAndRewrite in Hrun.
    unfold mbind at 1, M_bind at 1 in Hrun. rewrite GetOrCreate_run in Hrun.
    munfold. injection Hrun as <-. simpl. split; [lia|apply registry_after_subseteq].
Qed.

Lemma rewrites_work m m' :
  rewrites m m' →
  remaining_work m' < remaining_work m ∧ declarations m ⊆ declarations m'.
Proof.
  intros (p & f & i & Hp & Hrun). unfold applyPattern in Hrun.
  destruct (functions m !! f) as [fn|] eqn:Hf; [|done].
  destruct (front fn !! i) as [op|] eqn:Hi; [|done].
  destruct (p op (start m fn i op)) as [[[] r]|] eqn:Hpat; [|done|done].
  injection Hrun as <-.
  destruct (pattern_work _ _ _ _ Hp Hpat) as [Hwork Hreg].
  split; [|exact Hreg].
  unfold remaining_work, commit. simpl.
  pose proof (sum_list_with_insert (λ fn, sum_list_with work (front fn)) (functions m) f fn
      {| sym_name := sym_name fn; front := preceding r ++ root r ++ drop (S i) (front fn) |}
      Hf) as Hsum.
  assert (sum_list_with work (front fn) =
            sum_list_with work (take i (front fn)) + work op
            + sum_list_with work (drop (S i) (front fn))) as Hsplit.
  { rewrite <- (take_drop_middle _ _ _ Hi) at 1.
    rewrite sum_list_with_app. simpl. lia. }
  simpl in Hsum, Hwork. rewrite !sum_list_with_app, Hsplit in Hsum. lia.
Qed.

Lemma trivially_dead_inv fn op :
  isOpTriviallyDead fn op = true →
  work op = 1 ∧ matchable op = false ∧ is_lowered op = true.
Proof. by destruct op. Qed.

Lemma erases_work m m' :
  erases m m' →
  remaining_work m' < remaining_work m ∧
  count_matchable m' = count_matchable m ∧
  declarations m' = declarations m.
Proof.
  intros (f & i & fn & op & Hf & Hi & Hdead & ->).
  destruct (trivially_dead_inv _ _ Hdead) as (Hwork & Hmatch & _).
  unfold remaining_work, count_matchable, erase. simpl.
  pose proof (sum_list_with_insert (λ fn, sum_list_with work (front fn)) (functions m) f fn
      {| sym_name := sym_name fn; front := delete i (front fn) |} Hf) as Hsum.
  pose proof (sum_list_with_insert (λ fn, count_ops matchable (front fn)) (functions m) f fn
      {| sym_name := sym_name fn; front := delete i (front fn) |} Hf) as Hcount.
  pose proof (sum_list_with_delete work _ _ _ Hi) as Hdel.
  assert (count_ops matchable (delete i (front fn)) = count_ops matchable (front fn))
    as Hsame.
  { rewrite <- (take_drop_middle _ _ _ Hi) at 2. rewrite delete_take_drop.
    by rewrite !count_ops_app, count_ops_cons, Hmatch. }
  simpl in Hsum, Hcount. rewrite Hsame in Hcount.
  split_and!; [lia|lia|done].
Qed.

Lemma engine_step_decreases m m' :
  engine_step m m' → remaining_work m' < remaining_work m.
Proof. intros [Hstep|Hstep]; [by apply rewrites_work|by apply erases_work]. Qed.

Lemma processOperation_inv m f i result m' :
  processOperation m f i = Some (result, m') →
  match result with
  | success => engine_step m m'
  | failure =>
      m' = m ∧
      (∀ p, p ∈ patterns → applyPattern p m f i = Some (failure, m)) ∧
      (∀ fn op, functions m !! f = Some fn → front fn !! i = Some op →
                isOpTriviallyDead fn op = false)
  end.
Proof.
  unfold processOperation. intros Hrun.
  destruct (functions m !! f) as [fn|] eqn:Hf.
  2: { injection Hrun as <- <-. split_and!; [done| |done].
       intros p _. unfold applyPattern. by rewrite Hf. }
  destruct (front fn !! i) as [op|] eqn:Hi.
  2: { injection Hrun as <- <-. split_and!; [done| |by intros ? ? [= <-]; rewrite Hi].
       intros p _. unfold applyPattern. by rewrite Hf, Hi. }
  destruct (isOpTriviallyDead fn op) eqn:Hdead.
  - injection Hrun as <- <-. right. by exists f, i, fn, op.
  - pose proof (applyPatterns_inv _ _ _ _ _ _ (λ _ H, H) Hrun) as Hps.
    destruct result.
    + destruct Hps as (p & Hp & Hp'). left. by exists p, f, i.
    + destruct Hps as [-> Hall]. split_and!; [done|done|].
      intros fn' op' [= <-]. rewrite Hi. by intros [= <-].
Qed.

Lemma sweep_inv worklist : ∀ m result m',
  sweep worklist m = Some (result, m') →
  match result with
  | success => engine_step m m'
  | failure =>
      m' = m ∧
      (∀ f i p, (f, i) ∈ worklist → p ∈ patterns →
                applyPattern p m f i = Some (failure, m)) ∧
      (∀ f i fn op, (f, i) ∈ worklist →
                    functions m !! f = Some fn → front fn !! i = Some op →
                    isOpTriviallyDead fn op = false)
  end.
Proof.
  induction worklist as [|[f i] worklist IH]; intros m result m' Hrun;
    cbn [sweep] in Hrun.
  - injection Hrun as <- <-.
    split_and!; [done| |].
    + intros f i p Hin. by apply elem_of_nil in Hin.
    + intros f i fn op Hin. by apply elem_of_nil in Hin.
  - destruct (processOperation m f i) as [[[] m1]|] eqn:Hps; [| |done].
    + injection Hrun as <- <-. exact (processOperation_inv _ _ _ _ _ Hps).
    + destruct (processOperation_inv _ _ _ _ _ Hps) as (-> & Hall & Hlive).
      apply IH in Hrun. destruct result; [done|].
      destruct Hrun as (-> & Hrest & Hlive'). split_and!; [done| |].
      * intros f' i' p [[= -> ->]|Hin]%elem_of_cons Hp; [by apply Hall|by apply Hrest].
      * intros f' i' fn op [[= -> ->]|Hin]%elem_of_cons; [by apply Hlive|by apply Hlive'].
Qed.

Lemma elem_of_positions m f i fn :
  functions m !! f = Some fn →
  i < length (front fn) →
  (f, i) ∈ positions m.
Proof.
  intros Hf Hi. unfold positions. apply list_elem_of_join.
  exists ((λ i, (f, i)) <$> seq 0 (length (front fn))). split.
  - apply list_elem_of_fmap. exists i. split; [done|]. apply elem_of_seq. lia.
  - by apply (elem_of_lookup_imap_2
                (λ f fn, (λ i, (f, i)) <$> seq 0 (length (front fn)))).
Qed.

(** After a sweep that found nothing the engine changes nothing. *)
Lemma sweep_fixed_point m :
  sweep (positions m) m = Some (failure, m) →
  ∀ m', ¬ engine_step m m'.
Proof.
  intros Hsweep m' Hstep.
  apply sweep_inv in Hsweep as (_ & Hall & Hlive).
  destruct Hstep as [(p & f & i & Hp & Hrun)|(f & i & fn & op & Hf & Hi & Hdead & _)].
  - destruct (functions m !! f) as [fn|] eqn:Hf;
      [|by unfold applyPattern in Hrun; rewrite Hf in Hrun].
    destruct (front fn !! i) as [op|] eqn:Hi;
      [|by unfold applyPattern in Hrun; rewrite Hf, Hi in Hrun].
    rewrite (Hall f i p) in Hrun; [done| |done].
    eapply elem_of_positions; [done|]. by eapply lookup_lt_Some.
  - rewrite (Hlive f i fn op) in Hdead; [done| |done|done].
    eapply elem_of_positions; [done|]. by eapply lookup_lt_Some.
Qed.

Lemma rewrites_decreases m m' :
  rewrites m m' → count_matchable m = S (count_matchable m').
Proof. intros (p & f & i & Hp & Hrun). by eapply applyPattern_success_count. Qed.

Lemma greedy_converges n : ∀ m,
  remaining_work m ≤ n →
  applyPatternsAndFoldGreedily n m = None ∨
  ∃ m', applyPatternsAndFoldGreedily n m = Some (success, m') ∧
        rtc engine_step m m' ∧
        sweep (positions m') m' = Some (failure, m') ∧
        ∀ m'', ¬ engine_step m' m''.
Proof.
  induction n as [|n IH]; intros m Hwork.
  - simpl. destruct (sweep (positions m) m) as [[[] m1]|] eqn:Hsweep; [| |by left].
    + apply sweep_inv, engine_step_decreases in Hsweep. lia.
    + right. pose proof (sweep_inv _ _ _ _ Hsweep) as [-> _].
      exists m. split_and!; [done|done|done|by apply sweep_fixed_point].
  - simpl. destruct (sweep (positions m) m) as [[[] m1]|] eqn:Hsweep; [| |by left].
    + pose proof (sweep_inv _ _ _ _ Hsweep) as Hstep. simpl in Hstep.
      pose proof (engine_step_decreases _ _ Hstep) as Hdec.
      destruct (IH m1) as [Habort|(m' & Hrun & Hsteps & Hfix & Hnone)]; [lia|by left|].
      right. exists m'. split_and!; [done| |done|done].
      by eapply rtc_l.
    + right. pose proof (sweep_inv _ _ _ _ Hsweep) as [-> _].
      exists m. split_and!; [done|done|done|by apply sweep_fixed_point].
Qed.

(** A successful pattern only adds operations of the four lowered kinds,
    around the operations that were there. *)
Lemma pattern_shape (p : Pattern) op r r' :
  p ∈ patterns →
  p op r = Some (success, r') →
  ∃ pre post,
    preceding r' = pre ++ preceding r ++ post ∧
    Forall (λ o, is_lowered o = true) (pre ++ post ++ root r').
Proof.
  unfold patterns. rewrite !elem_of_cons, elem_of_nil.
  intros [->|[->|[->|[->|[->|[->|[]]]]]]] Hrun.
  - destruct op; try discriminate. simpl in Hrun. unfold LowerXfeed in Hrun.
    unfold mbind at 1, M_bind at 1 in Hrun. rewrite GetOrCreate_run in Hrun.
    munfold. injection Hrun as <-. exists [], []. simpl.
    rewrite app_nil_r. split; [done|]. by repeat constructor.
  - destruct op; try discriminate. simpl in Hrun. unfold LowerXfeed in Hrun.
    unfold mbind at 1, M_bind at 1 in Hrun. rewrite GetOrCreate_run in Hrun.
    munfold. injection Hrun as <-. exists [], []. simpl.
    rewrite app_nil_r. split; [done|]. by repeat constructor.
  - destruct op as [op| | | | | | | | |]; try discriminate. simpl in Hrun.
    destruct (CustomCallOpLowering_inv _ _ _ _ Hrun) as (operands & nr & r1 & Hops).
    rewrite (CustomCallOpLowering_run _ _ _ _ _ Hops) in Hrun.
    injection Hrun as <-. simpl.
    unfold call_operands_and_num_results in Hops.
    destruct (getTargetArgMapping op) as [mapping|].
    + apply map_target_operands_inv in Hops as [_ ->]. simpl.
      exists [AllocaOp (mkValue (next_value r) hole_type)], []. simpl.
      rewrite app_nil_r. split; [done|]. by repeat constructor.
    + injection Hops as _ _ <-. exists [], []. simpl.
      rewrite app_nil_r. split; [done|]. by repeat constructor.
  - destruct op as [| | | | |operands attrs| | | |]; try discriminate. simpl in Hrun.
    destruct (AllReduceLowering_success_inv _ _ _ _ Hrun)
      as (first & new & created & _ & _ & HF & _ & Hpre & Hroot).
    exists [], (mjoin created ++ [CallOp {| callee := kCallTarget_all_reduce;
                                            call_operands := new;
                                            call_results := [];
                                            call_attrs := attrs ∪ all_reduce_defaults |}]).
    split; [done|]. rewrite Hroot, app_nil_r. simpl.
    apply Forall_app. split; [|by repeat constructor].
    clear -HF. induction HF as [|? ? ? ? ? ? Hn _ IH]; [constructor|].
    simpl. apply Forall_app. split; [|done].
    destruct Hn; by repeat constructor.
  - destruct op; try discriminate. simpl in Hrun.
    unfold IdOpLowering_matchAndRewrite in Hrun.
    unfold mbind at 1, M_bind at 1 in Hrun. rewrite GetOrCreate_run in Hrun.
    munfold. injection Hrun as <-. exists [], []. simpl.
    rewrite app_nil_r. split; [done|]. by repeat constructor.
  - destruct op; try discriminate. simpl in Hrun.
    unfold IdOpLowering_matchAndRewrite in Hrun.
    unfold mbind at 1, M_bind at 1 in Hrun. rewrite GetOrCreate_run in Hrun.
    munfold. injection Hrun as <-. exists [], []. simpl.
    rewrite app_nil_r. split; [done|]. by repeat constructor.
Qed.

(** C8: no pattern of the pass puts an operation that a pattern takes on
    into the module - what it leaves in place of the matched operation and
    in front of it are calls, allocations and copies - so every replacement
    lowers the number of matchable operations by one, and the engine's
    erasure of an unused allocation leaves that number as it is.  Every
    change the engine makes, replacement or erasure, lowers the work that
    remains, so changes cannot go on for ever; and the pass, given room for
    as many changes as there is work, does not report a convergence
    failure: unless an assertion of the host stops it, it ends at a module
    that the engine changes no more. *)
Theorem lowering_reaches_fixed_point :
  (∀ (p : Pattern) op r r',
     p ∈ patterns → p op r = Some (success, r') →
     matchable op = true ∧
     count_ops matchable (preceding r') = count_ops matchable (preceding r) ∧
     count_ops matchable (root r') = 0) ∧
  (∀ m m', rewrites m m' → count_matchable m = S (count_matchable m')) ∧
  (∀ m m', erases m m' → count_matchable m' = count_matchable m) ∧
  (∀ m m', engine_step m m' → remaining_work m' < remaining_work m) ∧
  well_founded (λ m' m, rewrites m m') ∧
  well_founded (λ m' m, engine_step m m') ∧
  (∀ m max_rewrites,
     remaining_work m ≤ max_rewrites →
     runOnOperation max_rewrites m = None ∨
     ∃ m', runOnOperation max_rewrites m = Some (PassSucceeded, m') ∧
           rtc engine_step m m' ∧
           ∀ m'', ¬ engine_step m' m'').
Proof.
  split_and!.
  - apply pattern_success.
  - apply rewrites_decreases.
  - intros m m' Hstep. by apply erases_work.
  - apply engine_step_decreases.
  - apply (well_founded_lt_compat _ count_matchable).
    intros m' m Hstep. apply rewrites_decreases in Hstep. lia.
  - apply (well_founded_lt_compat _ remaining_work).
    intros m' m Hstep. by apply engine_step_decreases.
  - intros m n Hn. unfold runOnOperation.
    destruct (greedy_converges n m Hn) as [->|(m' & -> & Hsteps & _ & Hfix)]; [by left|].
    right. by exists m'.
Qed.

(** C8 on the function with two mapped custom calls: work for four changes,
    and the pass ends after its two replacements. *)
Lemma lowering_reaches_fixed_point_witness :
  remaining_work two_mapped_custom_calls ≤ 4 ∧
  ∃ m', runOnOperation 4 two_mapped_custom_calls = Some (PassSucceeded, m') ∧
        rtc engine_step two_mapped_custom_calls m' ∧
        ∀ m'', ¬ engine_step m' m''.
Proof.
  assert (remaining_work two_mapped_custom_calls ≤ 4) as Hwork by (vm_compute; lia).
  split; [exact Hwork|].
  destruct lowering_reaches_fixed_point as (_ & _ & _ & _ & _ & _ & Hpass).
  destruct (Hpass two_mapped_custom_calls 4 Hwork) as [Habort|Hdone]; [|exact Hdone].
  vm_compute in Habort. discriminate.
Defined.


(** * Further properties *)

(** ** Partition and replica id *)

(** An [IdOpLowering] replaces the id operation of its kind, where it
    stands, by one call to its call target without operands or attributes
    and with one [i32] result that takes the place of the operation's
    result; it asks the registry for a callee of type [() -> i32], creates
    no value, and does not fire on the id operation of the other kind. *)
Theorem id_op_lowering m f i fn kind call_target result :
  functions m !! f = Some fn →
  front fn !! i = Some (IdOp_operation kind result) →
  let call := {| callee := call_target;
                 call_operands := [];
                 call_results := [mkValue (value_id result) (ScalarTy (IntegerType 32))];
                 call_attrs := ∅ |} in
  applyPattern (IdOpLowering kind call_target) m f i =
    Some (success,
          {| functions :=
               <[f := {| sym_name := sym_name fn;
                         front := <[i := CallOp call]> (front fn) |}]> (functions m);
             declarations :=
               registry_after call_target [] [ScalarTy (IntegerType 32)] (declarations m);
             value_supply := value_supply m |}) ∧
  ∀ other, other ≠ kind →
    applyPattern (IdOpLowering other call_target) m f i = Some (failure, m).
Proof.
  intros Hf Hi call. split.
  - rewrite (applyPattern_at _ _ _ _ _ _ Hf Hi).
    assert (IdOpLowering kind call_target (IdOp_operation kind result)
            = IdOpLowering_matchAndRewrite result call_target) as -> by (by destruct kind).
    unfold IdOpLowering_matchAndRewrite. unfold mbind at 1, M_bind at 1.
    rewrite GetOrCreate_run. munfold. unfold commit. simpl.
    by rewrite (insert_take_drop (front fn)) by (by eapply lookup_lt_Some).
  - intros other Hother. eapply applyPattern_failure_at; [done|done|].
    by destruct kind, other.
Qed.

(** The partition id of the sample function. *)
Lemma id_op_lowering_witness :
  ∃ m',
    applyPattern (IdOpLowering PartitionId "xla.cpu.partition_id") all_kinds_module 0 1
      = Some (success, m') ∧
    (front <$> functions m' !! 0) ≫= (.!! 1) =
      Some (CallOp {| callee := "xla.cpu.partition_id"; call_operands := [];
                      call_results := [mkValue 4 getI32Type]; call_attrs := ∅ |}) ∧
    declarations m' !! "xla.cpu.partition_id" =
      Some {| getInputs := []; getResults := [getI32Type] |} ∧
    applyPattern (IdOpLowering ReplicaId "xla.cpu.partition_id") all_kinds_module 0 1
      = Some (failure, all_kinds_module).
Proof.
  destruct (id_op_lowering all_kinds_module 0 1 _ PartitionId "xla.cpu.partition_id"
              (mkValue 4 getI32Type) eq_refl eq_refl) as [Hrun Hother].
  eexists. split_and!; [exact Hrun|reflexivity|reflexivity|].
  by apply Hother.
Defined.

(** ** Generic custom call *)

(** Without a target-argument mapping the custom call is replaced where it
    stands and nothing else happens to the function: no stack allocation is
    made and no value is created. *)
Theorem custom_call_without_mapping_in_place m f i fn op :
  functions m !! f = Some fn →
  front fn !! i = Some (CustomCallOp op) →
  getTargetArgMapping op = None →
  let operands := getArgs op ++ getOutput op in
  let call := {| callee := "xla.cpu.custom_call";
                 call_operands := operands;
                 call_results := [];
                 call_attrs :=
                   custom_call_attr_dict op (Z.of_nat (length (getOutput op))) |} in
  applyPattern CustomCallOpLowering m f i =
    Some (success,
          {| functions :=
               <[f := {| sym_name := sym_name fn;
                         front := <[i := CallOp call]> (front fn) |}]> (functions m);
             declarations :=
               registry_after "xla.cpu.custom_call" (getType <$> operands) []
                 (declarations m);
             value_supply := value_supply m |}).
Proof.
  intros Hf Hi Hmap operands call.
  rewrite (applyPattern_at _ _ _ _ _ _ Hf Hi). simpl.
  erewrite CustomCallOpLowering_run
    by (unfold call_operands_and_num_results; rewrite Hmap; reflexivity).
  unfold commit. simpl.
  by rewrite (insert_take_drop (front fn)) by (by eapply lookup_lt_Some).
Qed.

(** A custom call without a mapping between two other operations. *)
Lemma custom_call_without_mapping_in_place_witness :
  let a := mkValue 0 f32_8 in
  let out := mkValue 1 f32_4x4 in
  let op := {| getArgs := [a]; getOutput := [out];
               getCallTargetNameAttr := StringAttr "target";
               getApiVersionAttr := IntegerAttr 32 2;
               getTargetArgMapping := None |} in
  let m := {| functions :=
                [{| sym_name := "main";
                    front := [InfeedOp [a] ∅; CustomCallOp op; OutfeedOp [out] ∅] |}];
              declarations := ∅; value_supply := 2 |} in
  ∃ m' call,
    applyPattern CustomCallOpLowering m 0 1 = Some (success, m') ∧
    functions m' =
      [{| sym_name := "main";
          front := [InfeedOp [a] ∅; CallOp call; OutfeedOp [out] ∅] |}] ∧
    call_operands call = [a; out] ∧
    hole_allocas m' 0 = 0 ∧
    value_supply m' = 2.
Proof.
  intros a out op m.
  pose proof (custom_call_without_mapping_in_place m 0 1 _ op eq_refl eq_refl eq_refl)
    as Hrun.
  eexists _, _. split; [exact Hrun|]. split_and!; reflexivity.
Defined.

Lemma insert_swap_Permutation {A} (l : list A) k h v :
  l !! k = Some h → h :: <[k := v]> l ≡ₚ v :: l.
Proof.
  revert k. induction l as [|a l IH]; intros [|k] Hk; simpl in *; try done.
  - injection Hk as ->. apply perm_swap.
  - rewrite (perm_swap a h), (IH k Hk). apply perm_swap.
Qed.

(** The writes of one loop move the written source values into the list and
    the same number of placeholders out of it. *)
Lemma assign_mapped_Permutation targets : ∀ index base source operands operands' h,
  assign_mapped targets index base source operands = Some operands' →
  NoDup targets →
  Forall (λ t, 0 ≤ base + t < 2 ^ 63)%Z targets →
  (∀ t, t ∈ targets → operands !! Z.to_nat (base + t) = Some h) →
  operands' ++ replicate (length targets) h ≡ₚ
    take (length targets) (drop index source) ++ operands.
Proof.
  induction targets as [|t targets IH];
    intros index base source operands operands' h Hrun Hnd Hpos Hhole; simpl in *.
  - injection Hrun as <-. by rewrite app_nil_r.
  - inversion Hnd as [|? ? Hnotin Hnd']; subst. inversion Hpos as [|? ? Ht Hpos']; subst.
    destruct (source !! index) as [v|] eqn:Hv; [|done].
    rewrite int64_add_small in Hrun by lia.
    unfold assign in Hrun. case_bool_decide; [|done].
    rewrite (drop_S _ _ _ Hv). simpl.
    specialize (IH (S index) base source _ operands' h Hrun Hnd' Hpos').
    rewrite <- Permutation_middle, IH.
    + rewrite Permutation_middle.
      rewrite (insert_swap_Permutation operands _ h v) by (apply Hhole; by left).
      by rewrite <- Permutation_middle.
    + intros t' Hin. rewrite list_lookup_insert_ne; [apply Hhole; by right|].
      rewrite Forall_forall in Hpos'. specialize (Hpos' _ Hin). simpl in Hpos'.
      intros Heq. apply Hnotin. replace t with t' by lia. done.
Qed.

(** Under a target-argument mapping that the verifier accepts every source
    argument and every source result is passed exactly once: whenever the
    lowering returns, the operands of the call are, up to their order, the
    source arguments, the source results and one hole for each target slot
    left over. *)
Theorem custom_call_mapping_preserves_operands (op : CustomCall)
    (mapping : CustomCallTargetArgMapping) (r r' : Rewriter) (result : LogicalResult) :
  getTargetArgMapping op = Some mapping →
  verified_mapping op mapping →
  CustomCallOpLowering_matchAndRewrite op r = Some (result, r') →
  let slots := Z.to_nat (getNumArgs mapping + getNumResults mapping) in
  let hole := mkValue (next_value r) hole_type in
  ∃ call,
    result = success ∧
    root r' = [CallOp call] ∧
    call_operands call ≡ₚ
      getArgs op ++ getOutput op
        ++ replicate (slots - length (getArgs op) - length (getOutput op)) hole.
Proof.
  intros Hmap Hver Hlow slots hole.
  destruct (CustomCallOpLowering_inv _ _ _ _ Hlow) as (operands & nr & r1 & Hops).
  rewrite (CustomCallOpLowering_run _ _ _ _ _ Hops) in Hlow.
  injection Hlow as <- <-.
  unfold call_operands_and_num_results in Hops. rewrite Hmap in Hops.
  pose proof (map_target_operands_fits op mapping r Hver (mk_is_Some _ _ Hops)) as Hfits.
  eexists. split; [reflexivity|]. split; [reflexivity|]. cbn [call_operands].
  destruct Hver as (Hla & Hlr & Hnda & Hndr & Hna & Hnr & Hra & Hrr & Hia & Hir).
  rename Hops into Hrun.
  unfold map_target_operands in Hrun. munfold.
  rewrite int64_add_small in Hrun by lia.
  unfold SmallVector_fill in Hrun. case_bool_decide as Hn; [|done]. simpl in Hrun.
  fold hole_type in Hrun. fold hole in Hrun. fold slots in Hrun.
  destruct (assign_mapped (getArgsToTargetArgs mapping) 0 0 (getArgs op)
              (replicate slots hole)) as [ops1|] eqn:Hrun1; [|done]. simpl in Hrun.
  destruct (assign_mapped (getResultsToTargetResults mapping) 0 (getNumArgs mapping)
              (getOutput op) ops1) as [ops2|] eqn:Hrun2; [|done]. simpl in Hrun.
  injection Hrun as <- _ _.
  assert (slots = Z.to_nat (getNumArgs mapping) + Z.to_nat (getNumResults mapping))
    as Hslots by (subst slots; lia).
  rewrite Forall_forall in Hra, Hrr.
  destruct (assign_mapped_spec (getArgsToTargetArgs mapping) 0 0 (getArgs op)
              (replicate slots hole)) as (ops1' & Hrun1' & Hlen1 & _ & Hoth1).
  { rewrite length_replicate. apply Forall_forall. intros t Ht.
    specialize (Hra _ Ht). simpl in Hra. lia. }
  { rewrite length_replicate. subst slots. lia. }
  { simpl. lia. }
  { done. }
  rewrite Hrun1 in Hrun1'. injection Hrun1' as <-. rewrite length_replicate in Hlen1.
  pose proof (assign_mapped_Permutation _ _ _ _ _ _ hole Hrun1 Hnda) as Hperm1.
  rewrite Hla, drop_0, firstn_all in Hperm1.
  pose proof (assign_mapped_Permutation _ _ _ _ _ _ hole Hrun2 Hndr) as Hperm2.
  rewrite Hlr, drop_0, firstn_all in Hperm2.
  assert (ops1 ++ replicate (length (getArgs op)) hole ≡ₚ
            getArgs op ++ replicate slots hole) as H1.
  { apply Hperm1.
    - apply Forall_forall. intros t Ht. specialize (Hra _ Ht). simpl in Hra. lia.
    - intros t Ht. specialize (Hra _ Ht). simpl in Hra.
      apply lookup_replicate_2. lia. }
  assert (ops2 ++ replicate (length (getOutput op)) hole ≡ₚ getOutput op ++ ops1) as H2.
  { apply Hperm2.
    - apply Forall_forall. intros t Ht. specialize (Hrr _ Ht). simpl in Hrr. lia.
    - intros t Ht. specialize (Hrr _ Ht). simpl in Hrr.
      rewrite Hoth1; [apply lookup_replicate_2; lia|].
      intros t' Ht'. specialize (Hra _ Ht'). simpl in Hra. lia. }
  set (k := slots - length (getArgs op) - length (getOutput op)).
  assert (slots = k + length (getOutput op) + length (getArgs op)) as Hk
    by (subst k; lia).
  apply (Permutation_app_inv_r
           (replicate (length (getOutput op)) hole ++ replicate (length (getArgs op)) hole)).
  rewrite (app_assoc ops2), H2, <- (app_assoc _ ops1), H1.
  rewrite Hk at 1. rewrite !replicate_add.
  rewrite <- !app_assoc.
  rewrite (Permutation_app_swap_app (getOutput op) (getArgs op)). done.
Qed.

(** The mapping [{0->2, 1->0}] over three slots: two arguments, one hole. *)
Lemma custom_call_mapping_preserves_operands_witness :
  let a := mkValue 0 f32_8 in
  let b := mkValue 1 f32_8 in
  let r := {| custom_calls := ∅; next_value := 2; preceding := [];
              root := [CustomCallOp (mapped_custom_call a b)] |} in
  ∃ mapping call r',
    getTargetArgMapping (mapped_custom_call a b) = Some mapping ∧
    verified_mapping (mapped_custom_call a b) mapping ∧
    CustomCallOpLowering_matchAndRewrite (mapped_custom_call a b) r = Some (success, r') ∧
    root r' = [CallOp call] ∧
    call_operands call ≡ₚ [a; b; mkValue 2 hole_type].
Proof.
  intros a b r. eexists.
  assert (verified_mapping (mapped_custom_call a b)
            {| getNumArgs := 3; getNumResults := 0;
               getArgsToTargetArgs := [2; 0]%Z;
               getResultsToTargetResults := [] |}) as Hver by compute_done.
  assert (∃ r', CustomCallOpLowering_matchAndRewrite (mapped_custom_call a b) r
                  = Some (success, r')) as [r' Hrun] by (eexists; vm_compute; reflexivity).
  destruct (custom_call_mapping_preserves_operands (mapped_custom_call a b) _ r r' success
              eq_refl Hver Hrun) as (call & _ & Hroot & Hperm).
  exists call, r'. split_and!; [reflexivity|exact Hver|exact Hrun|exact Hroot|exact Hperm].
Defined.

(** ** All-reduce *)

Lemma normalized_types operands new_operands created :
  Forall3 normalized operands new_operands created →
  Forall2 (λ operand new_operand,
             ∃ shape elementType layout,
               getType operand = MemRefType shape elementType layout ∧
               getType new_operand = MemRefType shape elementType IdentityLayout)
          operands new_operands.
Proof.
  induction 1 as [|operand new ops operands news created Hn _ IH]; constructor; [|done].
  destruct Hn as [operand shape elem layout Hty Hid
                 |operand shape elem layout new Hty Hid Hnew].
  - exists shape, elem, layout. split; [done|]. by destruct layout.
  - by exists shape, elem, layout.
Qed.

(** The runtime only sees default layouts: the all-reduce call has one
    operand per source operand, and each is a buffer of the shape and element
    type of the source operand with the identity layout, whatever the layout
    of the source operand was. *)
Theorem all_reduce_call_operands_contiguous operands attrs r r' :
  AllReduceLowering_matchAndRewrite operands attrs r = Some (success, r') →
  ∃ call,
    last (preceding r') = Some (CallOp call) ∧
    length (call_operands call) = length operands ∧
    Forall has_identity_layout (call_operands call) ∧
    ∀ i operand,
      operands !! i = Some operand →
      ∃ shape elementType layout new_operand,
        getType operand = MemRefType shape elementType layout ∧
        call_operands call !! i = Some new_operand ∧
        getType new_operand = MemRefType shape elementType IdentityLayout.
Proof.
  intros Hrun.
  destruct (AllReduceLowering_success_inv _ _ _ _ Hrun)
    as (first & new & created & _ & _ & HF & _ & Hpre & _).
  apply normalized_types in HF.
  eexists. rewrite Hpre, !app_assoc, last_snoc. split; [reflexivity|].
  cbn [call_operands]. split_and!.
  - symmetry. by eapply Forall2_length.
  - clear -HF. induction HF as [|? ? ? ? (shape & elem & _ & _ & Hnew) _ IH];
      constructor; [|done]. by exists shape, elem.
  - intros i operand Hi.
    destruct (Forall2_lookup_l _ _ _ _ _ HF Hi)
      as (new_operand & Hnew & shape & elem & layout & Hty & Hty').
    by exists shape, elem, layout, new_operand.
Qed.

(** A contiguous buffer and a strided view. *)
Lemma all_reduce_call_operands_contiguous_witness :
  let r := {| custom_calls := ∅; next_value := 2; preceding := [];
              root := [AllReduceOp [contiguous_operand; strided_operand] ∅] |} in
  ∃ r' call,
    AllReduceLowering_matchAndRewrite [contiguous_operand; strided_operand] ∅ r
      = Some (success, r') ∧
    last (preceding r') = Some (CallOp call) ∧
    length (call_operands call) = 2 ∧
    Forall has_identity_layout (call_operands call).
Proof.
  intros r.
  assert (∃ r', AllReduceLowering_matchAndRewrite
                  [contiguous_operand; strided_operand] ∅ r = Some (success, r'))
    as [r' Hrun]
    by (eapply AllReduceLowering_run; [reflexivity|reflexivity|by repeat constructor]).
  destruct (all_reduce_call_operands_contiguous _ _ _ _ Hrun)
    as (call & Hlast & Hlen & Hall & _).
  by exists r', call.
Defined.

Lemma normalize_operands_identity operands : ∀ acc_v acc_t r,
  Forall has_identity_layout operands →
  normalize_operands operands acc_v acc_t r =
    Some ((acc_v ++ operands, acc_t ++ (getType <$> operands)), r).
Proof.
  induction operands as [|operand rest IH]; intros acc_v acc_t r Hall; simpl.
  - by rewrite !app_nil_r.
  - inversion Hall as [|? ? (shape & elem & Hty) Hrest]; subst.
    unfold mbind at 1, M_bind at 1. rewrite Hty. simpl.
    rewrite IH by done. by rewrite <- !app_assoc.
Qed.

(** When every operand already has the identity layout the all-reduce is
    replaced where it stands by one call on the very same operands: no
    allocation, no copy, no new value, and the rest of the function is as it
    was. *)
Theorem all_reduce_contiguous_in_place m f i fn operands attrs :
  functions m !! f = Some fn →
  front fn !! i = Some (AllReduceOp operands attrs) →
  operands ≠ [] →
  Forall has_identity_layout operands →
  let call := {| callee := "xla.cpu.all_reduce";
                 call_operands := operands;
                 call_results := [];
                 call_attrs := attrs ∪ all_reduce_defaults |} in
  applyPattern AllReduceLowering m f i =
    Some (success,
          {| functions :=
               <[f := {| sym_name := sym_name fn;
                         front := <[i := CallOp call]> (front fn) |}]> (functions m);
             declarations :=
               registry_after "xla.cpu.all_reduce" (getType <$> operands) []
                 (declarations m);
             value_supply := value_supply m |}).
Proof.
  intros Hf Hi Hne Hall call.
  rewrite (applyPattern_at _ _ _ _ _ _ Hf Hi). cbn [AllReduceLowering].
  unfold AllReduceLowering_matchAndRewrite. unfold mbind at 1, M_bind at 1.
  assert (∃ first, head operands = Some first ∧ isa_MemRefType (getType first) = true)
    as (first & -> & Hfirst).
  { destruct Hall as [|first rest (shape & elem & Hty) _]; [done|].
    exists first. by rewrite Hty. }
  cbn [lift_assert]. unfold mret at 1, M_ret at 1. rewrite Hfirst. cbn [negb].
  unfold mbind at 1, M_bind at 1.
  rewrite normalize_operands_identity by done. simpl.
  unfold mbind at 1, M_bind at 1. rewrite GetOrCreate_run. munfold.
  rewrite all_reduce_call. unfold commit. simpl. rewrite <- app_assoc.
  rewrite (insert_take_drop (front fn) i (CallOp call))
    by (by eapply lookup_lt_Some).
  reflexivity.
Qed.

(** An all-reduce of one contiguous buffer between two other operations. *)
Lemma all_reduce_contiguous_in_place_witness :
  let a := contiguous_operand in
  let m := {| functions :=
                [{| sym_name := "main";
                    front := [InfeedOp [a] ∅; AllReduceOp [a] ∅; OutfeedOp [a] ∅] |}];
              declarations := ∅; value_supply := 1 |} in
  has_identity_layout a ∧
  ∃ m' call,
    applyPattern AllReduceLowering m 0 1 = Some (success, m') ∧
    functions m' =
      [{| sym_name := "main";
          front := [InfeedOp [a] ∅; CallOp call; OutfeedOp [a] ∅] |}] ∧
    call_operands call = [a] ∧
    value_supply m' = 1.
Proof.
  intros a m.
  assert (has_identity_layout a) as Ha by (by eexists _, _).
  split; [exact Ha|].
  pose proof (all_reduce_contiguous_in_place m 0 1 _ [a] ∅ eq_refl eq_refl
                ltac:(discriminate) (Forall_cons_2 _ _ _ Ha (Forall_nil_2 _))) as Hrun.
  eexists _, _. split; [exact Hrun|]. split_and!; reflexivity.
Defined.

(** ** The pattern set *)

Lemma pattern_dedicated (p : Pattern) op r :
  p ∈ patterns →
  p op r = dedicated op op r ∨ p op r = Some (failure, r).
Proof.
  unfold patterns. rewrite !elem_of_cons, elem_of_nil.
  intros [->|[->|[->|[->|[->|[->|[]]]]]]]; destruct op; (by left) || (by right).
Qed.

Lemma dedicated_in_patterns op r :
  ∃ p, p ∈ patterns ∧ p op r = dedicated op op r.
Proof.
  destruct op.
  - exists CustomCallOpLowering. split; [set_solver|done].
  - exists InfeedOpLowering. split; [set_solver|done].
  - exists OutfeedOpLowering. split; [set_solver|done].
  - exists (IdOpLowering PartitionId "xla.cpu.partition_id"). split; [set_solver|done].
  - exists (IdOpLowering ReplicaId "xla.cpu.replica_id"). split; [set_solver|done].
  - exists AllReduceLowering. split; [set_solver|done].
  - exists InfeedOpLowering. split; [set_solver|done].
  - exists InfeedOpLowering. split; [set_solver|done].
  - exists InfeedOpLowering. split; [set_solver|done].
  - exists InfeedOpLowering. split; [set_solver|done].
Qed.

Lemma applyPatterns_all_fail (ps : list Pattern) m f i :
  (∀ p, p ∈ ps → applyPattern p m f i = Some (failure, m)) →
  applyPatterns ps m f i = Some (failure, m).
Proof.
  induction ps as [|p ps IH]; intros Hall; simpl; [done|].
  rewrite (Hall p) by left. apply IH. intros q Hq. apply Hall. by right.
Qed.

(** Whatever the order of the patterns, applying them to an operation is
    applying the pattern of its kind. *)
Lemma applyPatterns_dedicated (ps : list Pattern) m f i fn op :
  functions m !! f = Some fn →
  front fn !! i = Some op →
  ps ⊆ patterns →
  (∃ p, p ∈ ps ∧ p op (start m fn i op) = dedicated op op (start m fn i op)) →
  applyPatterns ps m f i = applyPattern (dedicated op) m f i.
Proof.
  intros Hf Hi Hsub Hin.
  rewrite (applyPattern_at (dedicated op) _ _ _ _ _ Hf Hi).
  set (s := start m fn i op) in *.
  assert (dedicated op op s = Some (failure, s) ∨ dedicated op op s ≠ Some (failure, s))
    as [Hfail|Hnofail].
  { destruct (dedicated op op s) as [[[] r']|] eqn:Hded;
      [by right| |by right]. left.
    destruct Hin as (q & Hq & Heq).
    by rewrite (pattern_failure q _ _ _ (Hsub _ Hq) Heq). }
  - (* the pattern of the kind declines: so do all *)
    rewrite Hfail. subst s. rewrite (commit_start _ _ _ _ _ Hf Hi).
    apply applyPatterns_all_fail. intros p Hp.
    eapply applyPattern_failure_at; [done|done|].
    destruct (pattern_dedicated p op (start m fn i op) (Hsub _ Hp)) as [Hp'|Hp'];
      congruence.
  - (* it does not: the patterns tried before it decline *)
    induction ps as [|p ps IH].
    { destruct Hin as (q & Hq & _). by apply elem_of_nil in Hq. }
    cbn [applyPatterns]. rewrite (applyPattern_at p _ _ _ _ _ Hf Hi). fold s.
    destruct (pattern_dedicated p op s (Hsub _ (list_elem_of_here _ _))) as [Hp|Hp];
      rewrite Hp.
    + destruct (dedicated op op s) as [[[] r']|] eqn:Hded; [done| |done].
      assert (r' = s) as -> by (eapply (pattern_failure p); [|done]; apply Hsub; left).
      done.
    + subst s. rewrite (commit_start _ _ _ _ _ Hf Hi). apply IH.
      * intros q Hq. apply Hsub. by right.
      * destruct Hin as (q & [->|Hq]%elem_of_cons & Heq); [congruence|by exists q].
Qed.

(** The result of trying the patterns on an operation does not depend on
    the order in which [runOnOperation] inserts them into the pattern set:
    any rearrangement of the six patterns gives the same result, success,
    failure or abort, and the same module. *)
Theorem pattern_order_irrelevant (ps : list Pattern) m f i :
  ps ≡ₚ patterns →
  applyPatterns ps m f i = applyPatterns patterns m f i.
Proof.
  intros Hperm.
  assert (ps ⊆ patterns) as Hsub by (intros p Hp; by rewrite <- Hperm).
  destruct (functions m !! f) as [fn|] eqn:Hf.
  - destruct (front fn !! i) as [op|] eqn:Hi.
    + destruct (dedicated_in_patterns op (start m fn i op)) as (d & Hd & Heq).
      rewrite (applyPatterns_dedicated ps m f i fn op Hf Hi Hsub)
        by (exists d; by rewrite Hperm).
      rewrite (applyPatterns_dedicated patterns m f i fn op Hf Hi (λ _ H, H))
        by (by exists d).
      done.
    + rewrite !applyPatterns_all_fail; [done| |];
        intros p _; unfold applyPattern; by rewrite Hf, Hi.
  - rewrite !applyPatterns_all_fail; [done| |];
      intros p _; unfold applyPattern; by rewrite Hf.
Qed.

(** The patterns in reverse order on the mapped custom call of the sample
    function. *)
Lemma pattern_order_irrelevant_witness :
  reverse patterns ≡ₚ patterns ∧
  applyPatterns (reverse patterns) all_kinds_module 0 3
    = applyPatterns patterns all_kinds_module 0 3.
Proof.
  assert (reverse patterns ≡ₚ patterns) as Hperm by apply reverse_Permutation.
  split; [exact Hperm|].
  exact (pattern_order_irrelevant (reverse patterns) all_kinds_module 0 3 Hperm).
Defined.

(** ** What a replacement leaves alone *)

(** The shape of the module after one replacement. *)
Lemma rewrites_inv m m' :
  rewrites m m' →
  ∃ f i fn op pre post,
    functions m !! f = Some fn ∧
    front fn !! i = Some op ∧
    matchable op = true ∧
    functions m' =
      <[f := {| sym_name := sym_name fn;
                front := pre ++ take i (front fn) ++ post ++ drop (S i) (front fn) |}]>
        (functions m) ∧
    Forall (λ o, is_lowered o = true) (pre ++ post).
Proof.
  intros (p & f & i & Hp & Hrun). unfold applyPattern in Hrun.
  destruct (functions m !! f) as [fn|] eqn:Hf; [|done].
  destruct (front fn !! i) as [op|] eqn:Hi; [|done].
  destruct (p op (start m fn i op)) as [[[] r]|] eqn:Hpat; [|done|done].
  injection Hrun as <-.
  destruct (pattern_shape _ _ _ _ Hp Hpat) as (pre & post & Hpre & Hnew).
  destruct (pattern_success _ _ _ _ Hp Hpat) as (Hop & _ & _).
  exists f, i, fn, op, pre, (post ++ root r). split_and!; [done|done|done| |].
  - unfold commit. simpl. rewrite Hpre. simpl. by rewrite <- !app_assoc.
  - done.
Qed.

(** A replacement happens in one function, at one matchable operation: the
    other functions are as they were, the function keeps its name, the
    operations before and after the replaced one are kept in their order,
    and all that is added, at the entry of the function or in the place of
    the operation, are allocations, copies and calls. *)
Theorem rewrite_frame m m' :
  rewrites m m' →
  ∃ f i fn op pre post,
    functions m !! f = Some fn ∧
    front fn !! i = Some op ∧
    matchable op = true ∧
    functions m' =
      <[f := {| sym_name := sym_name fn;
                front := pre ++ take i (front fn) ++ post ++ drop (S i) (front fn) |}]>
        (functions m) ∧
    Forall (λ o, is_lowered o = true) (pre ++ post).
Proof. apply rewrites_inv. Qed.

(** The infeed of the spec's scenario. *)
Lemma rewrite_frame_witness :
  ∃ m', rewrites infeed_module m' ∧
        ∃ f i fn op pre post,
          functions infeed_module !! f = Some fn ∧
          front fn !! i = Some op ∧
          matchable op = true ∧
          functions m' =
            <[f := {| sym_name := sym_name fn;
                      front := pre ++ take i (front fn) ++ post
                                 ++ drop (S i) (front fn) |}]>
              (functions infeed_module) ∧
          Forall (λ o, is_lowered o = true) (pre ++ post).
Proof.
  assert (∃ m', rewrites infeed_module m') as [m' Hstep].
  { eexists. exists InfeedOpLowering, 0, 0. split; [by left|].
    vm_compute. reflexivity. }
  exists m'. split; [exact Hstep|]. exact (rewrite_frame _ _ Hstep).
Defined.

(** ** What the pass leaves behind *)

Lemma greedy_inv n : ∀ m result m',
  applyPatternsAndFoldGreedily n m = Some (result, m') →
  rtc engine_step m m' ∧
  (result = success → sweep (positions m') m' = Some (failure, m')).
Proof.
  induction n as [|n IH]; intros m result m' Hrun; simpl in Hrun;
    destruct (sweep (positions m) m) as [[[] m1]|] eqn:Hsweep; try done.
  - injection Hrun as <- <-. split; [|done].
    apply rtc_once. by apply sweep_inv in Hsweep.
  - injection Hrun as <- <-. pose proof (sweep_inv _ _ _ _ Hsweep) as [-> _]. done.
  - destruct (IH _ _ _ Hrun) as [Hsteps Hfix]. split; [|done].
    eapply rtc_l; [|done]. by apply sweep_inv in Hsweep.
  - injection Hrun as <- <-. pose proof (sweep_inv _ _ _ _ Hsweep) as [-> _]. done.
Qed.

Lemma runOnOperation_inv n m result m' :
  runOnOperation n m = Some (result, m') →
  rtc engine_step m m' ∧
  (result = PassSucceeded → sweep (positions m') m' = Some (failure, m')).
Proof.
  unfold runOnOperation.
  destruct (applyPatternsAndFoldGreedily n m) as [[[] m1]|] eqn:Hrun; [| |done];
    intros [= <- <-]; destruct (greedy_inv _ _ _ _ Hrun) as [Hsteps Hfix].
  - split; [done|]. intros _. by apply Hfix.
  - split; [done|]. discriminate.
Qed.

(** The pattern of its kind never declines an infeed, an outfeed, a custom
    call or an id operation, and declines an all-reduce only when its first
    operand is not a buffer. *)
Lemma declined_operation op r r' :
  dedicated op op r = Some (failure, r') →
  is_lowered op = true ∨ deferred_all_reduce op.
Proof.
  destruct op as [op|operands attrs|operands attrs|result|result|operands attrs| | | |];
    simpl; intros Hrun; try (by left).
  - destruct (CustomCallOpLowering_inv _ _ _ _ Hrun) as (operands & nr & r1 & Hops).
    by rewrite (CustomCallOpLowering_run _ _ _ _ _ Hops) in Hrun.
  - unfold LowerXfeed in Hrun. unfold mbind at 1, M_bind at 1 in Hrun.
    rewrite GetOrCreate_run in Hrun. munfold. done.
  - unfold LowerXfeed in Hrun. unfold mbind at 1, M_bind at 1 in Hrun.
    rewrite GetOrCreate_run in Hrun. munfold. done.
  - unfold IdOpLowering_matchAndRewrite in Hrun. unfold mbind at 1, M_bind at 1 in Hrun.
    rewrite GetOrCreate_run in Hrun. munfold. done.
  - unfold IdOpLowering_matchAndRewrite in Hrun. unfold mbind at 1, M_bind at 1 in Hrun.
    rewrite GetOrCreate_run in Hrun. munfold. done.
  - right. unfold AllReduceLowering_matchAndRewrite in Hrun.
    unfold mbind at 1, M_bind at 1 in Hrun.
    destruct (head operands) as [first|] eqn:Hhead; simpl in Hrun; [|done].
    destruct (isa_MemRefType (getType first)) eqn:Hfirst; simpl in Hrun.
    + unfold mbind at 1, M_bind at 1 in Hrun.
      destruct (normalize_operands operands [] [] r) as [[[vs ts] r1]|]; [|done].
      unfold mbind at 1, M_bind at 1 in Hrun. rewrite GetOrCreate_run in Hrun.
      munfold. done.
    + by exists operands, attrs, first.
Qed.

(** After a run of the pass that succeeds no infeed, outfeed, custom call,
    partition id or replica id is left in any function, and the only
    all-reduces left are those whose first operand is not a buffer: every
    operation is an allocation, a copy, a call or such an all-reduce. *)
Theorem pass_lowers_everything_it_can max_rewrites m m' :
  runOnOperation max_rewrites m = Some (PassSucceeded, m') →
  ∀ f fn i op,
    functions m' !! f = Some fn →
    front fn !! i = Some op →
    is_lowered op = true ∨ deferred_all_reduce op.
Proof.
  intros Hrun f fn i op Hf Hi.
  destruct (runOnOperation_inv _ _ _ _ Hrun) as [_ Hfix].
  specialize (Hfix eq_refl). apply sweep_inv in Hfix as (_ & Hall & _).
  destruct (dedicated_in_patterns op (start m' fn i op)) as (d & Hd & Heq).
  assert ((f, i) ∈ positions m') as Hpos
    by (eapply elem_of_positions; [done|]; by eapply lookup_lt_Some).
  specialize (Hall f i d Hpos Hd).
  rewrite (applyPattern_at _ _ _ _ _ _ Hf Hi), Heq in Hall.
  destruct (dedicated op op (start m' fn i op)) as [[[] r']|] eqn:Hded; try done.
  by eapply declined_operation.
Qed.

(** The sample function with one operation of every source kind. *)
Lemma pass_lowers_everything_it_can_witness :
  ∃ m',
    runOnOperation 6 all_kinds_module = Some (PassSucceeded, m') ∧
    ∀ f fn i op,
      functions m' !! f = Some fn →
      front fn !! i = Some op →
      is_lowered op = true ∨ deferred_all_reduce op.
Proof.
  assert (∃ m', runOnOperation 6 all_kinds_module = Some (PassSucceeded, m'))
    as [m' Hrun] by (eexists; vm_compute; reflexivity).
  exists m'. split; [exact Hrun|].
  exact (pass_lowers_everything_it_can 6 all_kinds_module m' Hrun).
Defined.

Lemma greedy_fixed n m :
  sweep (positions m) m = Some (failure, m) →
  applyPatternsAndFoldGreedily n m = Some (success, m).
Proof. intros Hfix. destruct n; simpl; by rewrite Hfix. Qed.

(** The pass is idempotent: run again on the module a successful run left,
    with any bound on the number of replacements, it succeeds and changes
    nothing. *)
Theorem pass_idempotent max_rewrites m m' :
  runOnOperation max_rewrites m = Some (PassSucceeded, m') →
  ∀ again, runOnOperation again m' = Some (PassSucceeded, m').
Proof.
  intros Hrun again.
  destruct (runOnOperation_inv _ _ _ _ Hrun) as [_ Hfix].
  unfold runOnOperation. by rewrite (greedy_fixed again m' (Hfix eq_refl)).
Qed.

(** The sample function, lowered and lowered again. *)
Lemma pass_idempotent_witness :
  ∃ m',
    runOnOperation 6 all_kinds_module = Some (PassSucceeded, m') ∧
    runOnOperation 0 m' = Some (PassSucceeded, m') ∧
    runOnOperation 6 m' = Some (PassSucceeded, m').
Proof.
  assert (∃ m', runOnOperation 6 all_kinds_module = Some (PassSucceeded, m'))
    as [m' Hrun] by (eexists; vm_compute; reflexivity).
  exists m'. split_and!; [exact Hrun| |];
    exact (pass_idempotent 6 all_kinds_module m' Hrun _).
Defined.

Lemma filter_lowered_nil (l : list Operation) :
  Forall (λ o, is_lowered o = true) l →
  filter (λ o, is_lowered o = false) l = [].
Proof.
  induction 1 as [|o l Ho _ IH]; [done|].
  rewrite filter_cons_False by congruence. done.
Qed.

Lemma lowered_from_refl fn : lowered_from fn fn.
Proof. by split. Qed.

Lemma rewrites_lowered_from m m' :
  rewrites m m' → Forall2 lowered_from (functions m) (functions m').
Proof.
  intros (f & i & fn & op & pre & post & Hf & Hi & Hop & -> & Hnew)%rewrites_inv.
  rewrite <- (list_insert_id (functions m) f fn Hf) at 1.
  apply Forall2_insert.
  - apply Forall_Forall2_diag, Forall_forall. intros g _. apply lowered_from_refl.
  - split; [done|]. unfold source_operations. simpl.
    apply Forall_app in Hnew as [Hpre Hpost].
    rewrite <- (take_drop_middle _ _ _ Hi) at 3.
    rewrite !filter_app, (filter_lowered_nil pre), (filter_lowered_nil post) by done.
    simpl. apply sublist_app; [done|].
    rewrite filter_cons. case_decide; [by apply sublist_cons|done].
Qed.

Lemma erases_lowered_from m m' :
  erases m m' → Forall2 lowered_from (functions m) (functions m').
Proof.
  intros (f & i & fn & op & Hf & Hi & Hdead & ->).
  destruct (trivially_dead_inv _ _ Hdead) as (_ & _ & Hlow).
  unfold erase. simpl.
  rewrite <- (list_insert_id (functions m) f fn Hf) at 1.
  apply Forall2_insert.
  - apply Forall_Forall2_diag, Forall_forall. intros g _. apply lowered_from_refl.
  - split; [done|]. unfold source_operations. simpl.
    rewrite <- (take_drop_middle _ _ _ Hi) at 2. rewrite delete_take_drop.
    rewrite !filter_app, filter_cons_False by congruence. done.
Qed.

Lemma engine_step_keeps m m' :
  engine_step m m' →
  Forall2 lowered_from (functions m) (functions m') ∧
  declarations m ⊆ declarations m'.
Proof.
  intros [Hstep|Hstep].
  - split; [by apply rewrites_lowered_from|by apply rewrites_work].
  - split; [by apply erases_lowered_from|].
    destruct (erases_work _ _ Hstep) as (_ & _ & ->). done.
Qed.

(** Whatever the outcome of the pass, it adds, removes or renames no
    function definition, and in every function the operations the pass did
    not create are some of those that were there before, in the order they
    had: the pass creates no infeed, outfeed, custom call, id operation or
    all-reduce and moves none.  The declarations of the callees are kept
    apart from the definitions: the pass may add declarations to them, and
    it removes or changes none that was there. *)
Theorem pass_keeps_functions max_rewrites m result m' :
  runOnOperation max_rewrites m = Some (result, m') →
  Forall2 lowered_from (functions m) (functions m') ∧
  length (functions m') = length (functions m) ∧
  declarations m ⊆ declarations m'.
Proof.
  intros [Hsteps _]%runOnOperation_inv.
  assert (Forall2 lowered_from (functions m) (functions m') ∧
          declarations m ⊆ declarations m') as [Hfns Hdecl].
  { induction Hsteps as [m|m m1 m2 Hstep _ [IHf IHd]].
    - split; [|done].
      apply Forall_Forall2_diag, Forall_forall. intros g _. apply lowered_from_refl.
    - destruct (engine_step_keeps _ _ Hstep) as [Hf Hd]. split; [|by etrans].
      eapply Forall2_trans; [|exact Hf|exact IHf].
      intros fn fn1 fn2 [Hn1 Hs1] [Hn2 Hs2]. split; [congruence|].
      by etrans. }
  split_and!; [done| |done]. symmetry. by eapply Forall2_length.
Qed.

(** The sample function with one operation of every source kind: only the
    all-reduce of a tensor is left of them, and the six callees are
    declared. *)
Lemma pass_keeps_functions_witness :
  ∃ m',
    runOnOperation 6 all_kinds_module = Some (PassSucceeded, m') ∧
    Forall2 lowered_from (functions all_kinds_module) (functions m') ∧
    length (functions m') = length (functions all_kinds_module) ∧
    declarations all_kinds_module ⊆ declarations m' ∧
    source_operations <$> functions m' = [[AllReduceOp [tensor_operand] ∅]; []] ∧
    size (declarations m') = 6.
Proof.
  assert (∃ m', runOnOperation 6 all_kinds_module = Some (PassSucceeded, m') ∧
                source_operations <$> functions m' = [[AllReduceOp [tensor_operand] ∅]; []] ∧
                size (declarations m') = 6)
    as (m' & Hrun & Hleft & Hsize) by (eexists; split_and!; vm_compute; reflexivity).
  destruct (pass_keeps_functions 6 all_kinds_module _ m' Hrun) as (Hfns & Hlen & Hdecl).
  exists m'. split_and!; done.
Defined.

Lemma applyPatterns_nothing_to_lower m f i :
  nothing_to_lower m → applyPatterns patterns m f i = Some (failure, m).
Proof.
  intros Hm. rewrite applyPatterns_all_fail; [done|].
  intros p Hp. unfold applyPattern.
  destruct (functions m !! f) as [fn|] eqn:Hf; [|done].
  destruct (front fn !! i) as [op|] eqn:Hi; [|done].
  assert (is_lowered op = true ∨ deferred_all_reduce op) as Hop.
  { pose proof (Forall_lookup_1 _ _ _ _ Hm Hf) as Hfn. simpl in Hfn.
    exact (Forall_lookup_1 _ _ _ _ Hfn Hi). }
  assert (p op (start m fn i op) = Some (failure, start m fn i op)) as ->.
  { destruct (pattern_dedicated p op (start m fn i op) Hp) as [->|]; [|done].
    destruct Hop as [Hlow|(operands & attrs & first & -> & Hhead & Hfirst)].
    - by destruct op.
    - simpl. by eapply AllReduceLowering_no_match. }
  by rewrite (commit_start _ _ _ _ _ Hf Hi).
Qed.

Lemma sweep_nothing_to_lower worklist m :
  nothing_to_lower m → no_dead_allocation m → sweep worklist m = Some (failure, m).
Proof.
  intros Hm Hlive. induction worklist as [|[f i] worklist IH]; cbn [sweep]; [done|].
  assert (processOperation m f i = Some (failure, m)) as ->; [|done].
  unfold processOperation.
  destruct (functions m !! f) as [fn|] eqn:Hf; [|done].
  destruct (front fn !! i) as [op|] eqn:Hi; [|done].
  pose proof (Forall_lookup_1 _ _ _ _ Hlive Hf) as Hfn. simpl in Hfn.
  rewrite (Forall_lookup_1 _ _ _ _ Hfn Hi).
  by apply applyPatterns_nothing_to_lower.
Qed.

(** On a module in which every operation is an allocation, a copy, a call
    or an all-reduce whose first operand is not a buffer, and in which every
    allocation is used by some operation of its function - an empty module
    among them - the pass succeeds without changing anything, whatever the
    bound on replacements.  An allocation that nothing uses is erased by the
    engine. *)
Theorem pass_noop_when_nothing_to_lower :
  (∀ max_rewrites m,
     nothing_to_lower m →
     no_dead_allocation m →
     runOnOperation max_rewrites m = Some (PassSucceeded, m)) ∧
  (∀ max_rewrites m f fn i op,
     functions m !! f = Some fn →
     front fn !! i = Some op →
     isOpTriviallyDead fn op = true →
     runOnOperation max_rewrites m ≠ Some (PassSucceeded, m)).
Proof.
  split.
  - intros max_rewrites m Hm Hlive. unfold runOnOperation.
    by rewrite (greedy_fixed _ _ (sweep_nothing_to_lower (positions m) m Hm Hlive)).
  - intros max_rewrites m f fn i op Hf Hi Hdead Hrun.
    destruct (runOnOperation_inv _ _ _ _ Hrun) as [_ Hfix].
    specialize (Hfix eq_refl). apply sweep_inv in Hfix as (_ & _ & Hlive).
    rewrite (Hlive f i fn op) in Hdead; [done| |done|done].
    eapply elem_of_positions; [done|]. by eapply lookup_lt_Some.
Qed.

(** An all-reduce of a tensor, the module without functions, and a function
    that holds nothing but an unused stack allocation. *)
Lemma pass_noop_when_nothing_to_lower_witness :
  nothing_to_lower tensor_all_reduce ∧
  no_dead_allocation tensor_all_reduce ∧
  runOnOperation 0 tensor_all_reduce = Some (PassSucceeded, tensor_all_reduce) ∧
  runOnOperation 0 {| functions := []; declarations := ∅; value_supply := 0 |}
    = Some (PassSucceeded, {| functions := []; declarations := ∅; value_supply := 0 |}) ∧
  runOnOperation 1 unused_alloca ≠ Some (PassSucceeded, unused_alloca).
Proof.
  assert (nothing_to_lower tensor_all_reduce) as Hm.
  { apply Forall_cons_2; [|apply Forall_nil_2].
    apply Forall_cons_2; [|apply Forall_nil_2].
    right. by exists [tensor_operand], ∅, tensor_operand. }
  assert (no_dead_allocation tensor_all_reduce) as Hlive.
  { apply Forall_cons_2; [|apply Forall_nil_2].
    apply Forall_cons_2; [|apply Forall_nil_2]. reflexivity. }
  destruct pass_noop_when_nothing_to_lower as [Hnoop Hdead].
  split_and!; [exact Hm|exact Hlive|exact (Hnoop 0 _ Hm Hlive)| |].
  - apply Hnoop; constructor.
  - exact (Hdead 1 unused_alloca 0 _ 0 _ eq_refl eq_refl eq_refl).
Defined.
